(** * tfidf-go: tokenizer, TF, IDF, TF-IDF vectorizer and cosine similarity

    A shallow embedding of the Go packages [token], [tfidf] and
    [similarity], with the properties of their documentation proved on it.

    Conventions of the embedding.
    - A Go [string] is a sequence of bytes: the standard [string] type,
      whose characters are the 256 values of [ascii].
    - A Go [int] (lengths, indices, counters) is a [Z] or a [nat]; slices
      are far shorter than 2^63 elements, so no counter wraps.
    - A Go [map[string]struct{}] is a [gset string], a [map[string]int] a
      [gmap string nat].
    - A slice is a list and the [nil] slice is the empty list.  A value of
      the interface [error] is an [option error], [nil] being [None].  A
      function with results [(v, err)] returns the pair.
    - A [float64] is a real number.  Sums and products are the exact ones;
      a quotient by zero, the logarithm of a number that is not positive
      and the square root of a negative number (NaN or an infinity in
      float64) are the fault [Undefined].
    - A function in which an index expression or a float64 operation can
      go wrong runs in the monad [exec]: it is [Done] with its results, or
      stops on a [Fault]. *)

From Stdlib Require Import ZArith Reals Lra Lia Ascii String List Permutation Sorted.
From stdpp Require Import gmap strings sorting.
Import ListNotations.

Local Open Scope Z_scope.

(** ** Errors, faults and the monad of executions *)

(** The values of [error] that the vectorizer creates with [errors.New]. *)
Inductive error : Type :=
  | EmptyInput       (* "empty TF matrix" *)
  | ShapeMismatch    (* "TF matrix and IDF vector dimensions don't match" *)
  | InvalidConfig.   (* "invalid normalization level" *)

Inductive fault : Type :=
  | IndexOutOfRange  (* run-time panic: index out of range *)
  | Undefined.       (* a float64 operation with no real value *)

Inductive exec (A : Type) : Type :=
  | Done (a : A)
  | Fault (f : fault).
Arguments Done {A} a.
Arguments Fault {A} f.

#[global] Instance exec_ret : MRet exec := fun A a => Done a.

#[global] Instance exec_bind : MBind exec := fun A B k r =>
  match r with
  | Done a => k a
  | Fault f => Fault f
  end.

(** [l[i]], with the bounds check of the language. *)
Definition index {A} (l : list A) (i : nat) : exec A :=
  match l !! i with
  | Some x => Done x
  | None => Fault IndexOutOfRange
  end.

(** [l[i] = x], with the bounds check of the language. *)
Definition assign {A} (l : list A) (i : nat) (x : A) : exec (list A) :=
  if decide (i < length l)%nat then Done (<[i := x]> l) else Fault IndexOutOfRange.

(** ** float64 *)

Abbreviation float64 := R (only parsing).

#[global] Instance R_eq_dec : EqDecision R := Req_dec_T.
#[global] Instance Rlt_rel_dec : RelDecision Rlt := Rlt_dec.
#[global] Instance Rle_rel_dec : RelDecision Rle := Rle_dec.

Module Math.

Definition Div (x y : float64) : exec float64 :=
  if decide (y = 0%R) then Fault Undefined else Done (x / y)%R.

Definition Log (x : float64) : exec float64 :=
  if decide (0 < x)%R then Done (ln x) else Fault Undefined.

Definition Sqrt (x : float64) : exec float64 :=
  if decide (0 <= x)%R then Done (sqrt x) else Fault Undefined.

Definition Abs (x : float64) : float64 := Rabs x.

End Math.

(** ** Strings as byte sequences *)

Definition byte_val (c : ascii) : Z := Z.of_N (N_of_ascii c).

Definition len (s : string) : Z := Z.of_nat (String.length s).

(** [s[lo:hi]] for [0 <= lo <= hi <= len s]. *)
Definition slice (s : string) (lo hi : Z) : string :=
  substring (Z.to_nat lo) (Z.to_nat (hi - lo)) s.

Fixpoint skip (n : nat) (s : string) : string :=
  match n, s with
  | O, _ => s
  | S n', String _ s' => skip n' s'
  | S _, EmptyString => EmptyString
  end.

(** ** Package [unicode/utf8]: decoding one code point *)

Module Utf8.

Definition RuneError : Z := 0xFFFD.

Definition locb : Z := 0x80.
Definition hicb : Z := 0xBF.

(** The table [first] and [acceptRanges]: for a leading byte, the length of
    the sequence it starts and the range its second byte must lie in;
    [None] for a byte that starts no sequence. *)
Definition first (b : Z) : option (nat * (Z * Z)) :=
  if b <? 0xC2 then None
  else if b <? 0xE0 then Some (2%nat, (locb, hicb))
  else if b =? 0xE0 then Some (3%nat, (0xA0, hicb))
  else if b =? 0xED then Some (3%nat, (locb, 0x9F))
  else if b <? 0xF0 then Some (3%nat, (locb, hicb))
  else if b =? 0xF0 then Some (4%nat, (0x90, hicb))
  else if b <? 0xF4 then Some (4%nat, (locb, hicb))
  else if b =? 0xF4 then Some (4%nat, (locb, 0x8F))
  else None.

Definition cont (b : Z) : bool := (locb <=? b) && (b <=? hicb).

Definition bytes (s : string) : list Z := map byte_val (list_ascii_of_string s).

(** [DecodeRune]: the code point at the head of a non-empty sequence of
    bytes and the number of bytes it takes; an ill-formed sequence decodes
    as [(RuneError, 1)]. *)
Definition DecodeRune (p : list Z) : Z * nat :=
  match p with
  | [] => (RuneError, 0%nat)
  | s0 :: rest =>
      if s0 <? 0x80 then (s0, 1%nat)
      else match first s0 with
      | None => (RuneError, 1%nat)
      | Some (sz, (lo, hi)) =>
          match rest with
          | s1 :: rest1 =>
              if negb ((lo <=? s1) && (s1 <=? hi)) then (RuneError, 1%nat)
              else if (sz <=? 2)%nat
              then (Z.lor (Z.shiftl (Z.land s0 0x1F) 6) (Z.land s1 0x3F), 2%nat)
              else match rest1 with
              | s2 :: rest2 =>
                  if negb (cont s2) then (RuneError, 1%nat)
                  else if (sz <=? 3)%nat
                  then (Z.lor (Z.lor (Z.shiftl (Z.land s0 0x0F) 12)
                                     (Z.shiftl (Z.land s1 0x3F) 6))
                              (Z.land s2 0x3F), 3%nat)
                  else match rest2 with
                  | s3 :: _ =>
                      if negb (cont s3) then (RuneError, 1%nat)
                      else (Z.lor (Z.lor (Z.lor (Z.shiftl (Z.land s0 0x07) 18)
                                                (Z.shiftl (Z.land s1 0x3F) 12))
                                         (Z.shiftl (Z.land s2 0x3F) 6))
                                  (Z.land s3 0x3F), 4%nat)
                  | [] => (RuneError, 1%nat)
                  end
              | [] => (RuneError, 1%nat)
              end
          | [] => (RuneError, 1%nat)
          end
      end
  end.

Definition DecodeRuneInString (s : string) : Z * nat := DecodeRune (bytes s).

(** [for i, r := range s]: the pairs (byte offset, code point) the loop
    visits, in order.  Every step consumes at least one byte, so [fuel]
    equal to the length of the string is enough. *)
Fixpoint range_from (fuel : nat) (i : Z) (s : string) : list (Z * Z) :=
  match fuel, s with
  | S fuel', String _ _ =>
      let '(r, w) := DecodeRuneInString s in
      (i, r) :: range_from fuel' (i + Z.of_nat w) (skip w s)
  | _, _ => []
  end.

Definition range (s : string) : list (Z * Z) := range_from (String.length s) 0 s.

(** [RuneCountInString]. *)
Definition RuneCountInString (s : string) : nat := length (range s).

(** [[]rune(s)]: the code points of [s]. *)
Definition runes (s : string) : list Z := map snd (range s).

(** [ValidString]: [s] is made of well-formed sequences only, that is, no
    step of the decoding is the one-byte [RuneError] of an ill-formed
    sequence. *)
Fixpoint valid_from (fuel : nat) (s : string) : bool :=
  match fuel, s with
  | S fuel', String _ _ =>
      let '(r, w) := DecodeRuneInString s in
      negb ((r =? RuneError) && (w =? 1)%nat) && valid_from fuel' (skip w s)
  | _, _ => true
  end.

Definition ValidString (s : string) : bool := valid_from (String.length s) s.

(** The steps of the decoding of [s]: each code point with the bytes it was
    read from. *)
Fixpoint split_from (fuel : nat) (s : string) : list (Z * string) :=
  match fuel, s with
  | S fuel', String _ _ =>
      let '(r, w) := DecodeRuneInString s in
      (r, substring 0 w s) :: split_from fuel' (skip w s)
  | _, _ => []
  end.

Definition split (s : string) : list (Z * string) := split_from (String.length s) s.

End Utf8.

(** ** Package [unicode]: [IsLetter] *)

Module Unicode.

Definition MaxLatin1 : Z := 0xFF.

(** The letters of Latin-1, as the table [properties] has them
    ([pLu], [pLl] and [pLo] entries). *)
Definition latin1_letter (r : Z) : bool :=
  ((0x41 <=? r) && (r <=? 0x5A)) || ((0x61 <=? r) && (r <=? 0x7A))
  || (r =? 0xAA) || (r =? 0xB5) || (r =? 0xBA)
  || ((0xC0 <=? r) && (r <=? 0xD6)) || ((0xD8 <=? r) && (r <=? 0xF6))
  || ((0xF8 <=? r) && (r <=? 0xFF)).

(** [IsLetter r]: Latin-1 is decided by [properties]; beyond it by the
    range table [Letter], which is a parameter here. *)
Definition IsLetter (Letter : Z -> bool) (r : Z) : bool :=
  if (0 <=? r) && (r <=? MaxLatin1) then latin1_letter r else Letter r.

End Unicode.

(** ** Package [slices]: [Sort] on strings *)

Module Slices.

(** [slices.Sort] orders a [[]string] by the built-in [<] of strings, which
    compares byte by byte ([String.leb]).  The order is total and
    antisymmetric, so every sorting algorithm returns the same slice; merge
    sort stands for the library's. *)
Definition Sort (x : list string) : list string := merge_sort String.le x.

End Slices.

(** ** Package [strings]: [ToLower] *)

Module Strings.

Definition lower_byte (c : ascii) : ascii :=
  let n := N_of_ascii c in
  if ((65 <=? n) && (n <=? 90))%N then ascii_of_N (n + 32) else c.

(** [strings.ToLower] on its ASCII path: ['A'..'Z'] become ['a'..'z'], every
    other byte is kept.  (Beyond ASCII the library maps code points through
    the Unicode case tables, which are not part of this development.) *)
Fixpoint ToLower (s : string) : string :=
  match s with
  | EmptyString => EmptyString
  | String c s' => String (lower_byte c) (ToLower s')
  end.

End Strings.

(** ** Package [token]: the scanning tokenizer *)

(** The repository holds two versions of the package.  One finds the tokens
    of a document with the pattern [(?i)\p{L}{2,}]; the other, which is the
    one embedded here, scans the document once.  [vocabulary] is the same in
    both. *)

Module Token.

Record Tokenizer : Type := { normalizeFunc : option (string -> string) }.

Definition TokenizerOption : Type := Tokenizer -> Tokenizer.

Definition WithNormalizeFunc (fn : string -> string) : TokenizerOption :=
  fun t => {| normalizeFunc := Some fn |}.

Definition NewTokenizer (opts : list TokenizerOption) : Tokenizer :=
  fold_left (fun t opt => opt t) opts {| normalizeFunc := None |}.

(** [doNormalize] applies the normalization function to a token if it is
    defined. *)
Definition doNormalize (t : Tokenizer) (token : string) : string :=
  match normalizeFunc t with
  | Some f => f token
  | None => token
  end.

Section Scanner.

(** The range table [unicode.Letter] beyond Latin-1. *)
Variable Letter : Z -> bool.

(** One iteration of the loop of [tokenize]: the state is [start] (-1
    outside a run of letters) and the tokens appended so far. *)
Definition tokenize_step (t : Tokenizer) (doc : string)
    (st : Z * list string) (ir : Z * Z) : Z * list string :=
  let '(start, tokens) := st in
  let '(i, r) := ir in
  if Unicode.IsLetter Letter r then
    (if start =? -1 then i else start, tokens)
  else
    (-1, if negb (start =? -1) && (1 <? i - start)
         then tokens ++ [doNormalize t (slice doc start i)]
         else tokens).

Definition tokenize (t : Tokenizer) (doc : string) : list string :=
  let '(start, tokens) :=
    fold_left (tokenize_step t doc) (Utf8.range doc) (-1, []) in
  (* handle trailing token *)
  if negb (start =? -1) && (1 <? len doc - start)
  then tokens ++ [doNormalize t (slice doc start (len doc))]
  else tokens.

(** The loop of [vocabulary] over one token: the set of the terms seen and
    the terms in order of discovery. *)
Definition vocabulary_step (st : gset string * list string) (token : string)
    : gset string * list string :=
  let '(termsMap, terms) := st in
  if decide (token ∈ termsMap) then st
  else ({[token]} ∪ termsMap, terms ++ [token]).

Definition vocabulary (tokens : list (list string)) : list string :=
  let '(_, terms) :=
    fold_left (fun st doc => fold_left vocabulary_step doc st) tokens (∅, []) in
  Slices.Sort terms.

(** [Tokenize]: the vocabulary and the tokens of each document.  The error it
    returns is always [nil]. *)
Definition Tokenize (t : Tokenizer) (documents : list string)
    : list string * list (list string) :=
  let tokens :=
    map (fun doc =>
           let tkns := tokenize t doc in
           match normalizeFunc t with
           | Some f => map f tkns
           | None => tkns
           end) documents in
  (vocabulary tokens, tokens).

End Scanner.

End Token.

(** ** Package [tfidf] *)

Module Tfidf.

(** [type NLevel int] and its three named values. *)
Abbreviation NLevel := Z (only parsing).
Definition NoNorm : NLevel := 0.
Definition L1Norm : NLevel := 1.
Definition L2Norm : NLevel := 2.

Record TfIdfVectorizer : Type := { NormLevel : NLevel }.

Definition TfIdfOption : Type := TfIdfVectorizer -> TfIdfVectorizer.

Definition WithNormLevel (lvl : NLevel) : TfIdfOption :=
  fun t => {| NormLevel := lvl |}.

Definition NewTfIdfVectorizer (opts : list TfIdfOption) : TfIdfVectorizer :=
  fold_left (fun t opt => opt t) opts {| NormLevel := L2Norm |}.

(** [vec[i] /= norm] for every [i]. *)
Definition scale (norm : float64) (vec : list float64) : exec (list float64) :=
  mapM (fun val => Math.Div val norm) vec.

Definition l1Normalize (vec : list float64) : exec (list float64) :=
  let norm := fold_left (fun norm val => (norm + Math.Abs val)%R) vec 0%R in
  if decide (norm = 0%R) then Done vec
  else scale norm vec.

Definition l2Normalize (vec : list float64) : exec (list float64) :=
  let norm := fold_left (fun norm val => (norm + val * val)%R) vec 0%R in
  norm ← Math.Sqrt norm;
  if decide (norm = 0%R) then Done vec
  else scale norm vec.

Definition doNormalize (t : TfIdfVectorizer) (vec : list float64)
    : exec (list float64 * option error) :=
  if NormLevel t =? L1Norm then v ← l1Normalize vec; Done (v, None)
  else if NormLevel t =? L2Norm then v ← l2Normalize vec; Done (v, None)
  else if NormLevel t =? NoNorm then Done (vec, None)
  else Done ([], Some InvalidConfig).

(** The loop of [TfIdf] over the rows [i]; [cols] is [len(tfVec[0])], the
    length every row of [tfIdfMat] was made with. *)
Fixpoint TfIdf_rows (t : TfIdfVectorizer) (cols : nat) (idfVec : list float64)
    (rows : list (list float64)) : exec (list (list float64) * option error) :=
  match rows with
  | [] => Done ([], None)
  | row :: rest =>
      weighted ← mapM (fun j => tf ← index row j;
                               idf ← index idfVec j;
                               Done (tf * idf)%R) (seq 0 cols);
      '(normed, err) ← doNormalize t weighted;
      match err with
      | Some e => Done ([], Some e)
      | None =>
          '(mat, err') ← TfIdf_rows t cols idfVec rest;
          match err' with
          | Some e => Done ([], Some e)
          | None => Done (normed :: mat, None)
          end
      end
  end.

Definition TfIdf (t : TfIdfVectorizer) (tfVec : list (list float64))
    (idfVec : list float64) : exec (list (list float64) * option error) :=
  match tfVec with
  | [] => Done ([], Some EmptyInput)
  | row0 :: _ =>
      if negb (length row0 =? length idfVec)%nat then Done ([], Some ShapeMismatch)
      else TfIdf_rows t (length row0) idfVec tfVec
  end.

(** The frequency map of one document: [termsMap[term]++] for each term. *)
Definition term_counts (tokensRow : list string) : gmap string nat :=
  fold_left (fun termsMap term =>
               <[term := S (default 0%nat (termsMap !! term))]> termsMap)
            tokensRow ∅.

Definition Tf (vocabulary : list string) (tokens : list (list string))
    : list (list float64) :=
  map (fun tokensRow =>
         let termsMap := term_counts tokensRow in
         map (fun token =>
                match termsMap !! token with
                | Some val => INR val
                | None => 0%R
                end) vocabulary) tokens.

(** The set of the tokens of one document. *)
Definition doc_set (doc : list string) : gset string :=
  fold_left (fun docMap token => {[token]} ∪ docMap) doc ∅.

(** The number of documents that contain [term]. *)
Definition doc_count (docMaps : list (gset string)) (term : string) : nat :=
  fold_left (fun docCount docMap =>
               if decide (term ∈ docMap) then S docCount else docCount)
            docMaps 0%nat.

Definition Idf (vocabulary : list string) (tokens : list (list string))
    (smoothing : bool) : exec (list float64) :=
  let total := length tokens in
  if (total =? 0)%nat then Done (map (fun _ => 1%R) vocabulary)
  else
    let docMaps := map doc_set tokens in
    mapM (fun term =>
            let docCount := doc_count docMaps term in
            if smoothing then
              q ← Math.Div (INR (total + 1)) (INR (docCount + 1));
              l ← Math.Log q; Done (l + 1)%R
            else if (docCount =? 0)%nat then
              l ← Math.Log (INR total); Done (l + 1)%R
            else
              q ← Math.Div (INR total) (INR docCount);
              l ← Math.Log q; Done (l + 1)%R) vocabulary.

End Tfidf.

(** ** Package [similarity] *)

Module Similarity.

(** The two interfaces the engine is built from. *)
Record tokenizer : Type :=
  { Tokenize : list string -> exec (list string * list (list string) * option error) }.

Record vectorizer : Type :=
  { TfIdf : list (list float64) -> list float64 ->
            exec (list (list float64) * option error) }.

Record CosineSimilarity : Type :=
  { tokenizer_ : tokenizer; vectorizer_ : vectorizer }.

Definition NewCosineSimilarity (tk : tokenizer) (vz : vectorizer) : CosineSimilarity :=
  {| tokenizer_ := tk; vectorizer_ := vz |}.

(** The loop of [cosineSimilarity] over the indices of [vec1]. *)
Fixpoint cosine_loop (vec2 : list float64) (i : nat) (vec1 : list float64)
    (acc : float64 * float64 * float64) : exec (float64 * float64 * float64) :=
  match vec1 with
  | [] => Done acc
  | a :: rest =>
      let '(dot, normA, normB) := acc in
      b ← index vec2 i;
      cosine_loop vec2 (S i) rest (dot + a * b, normA + a * a, normB + b * b)%R
  end.

Definition cosineSimilarity (vec1 vec2 : list float64) : exec float64 :=
  '(dot, normA, normB) ← cosine_loop vec2 0 vec1 (0, 0, 0)%R;
  if decide (normA = 0%R ∨ normB = 0%R) then Done 0%R
  else
    sa ← Math.Sqrt normA;
    sb ← Math.Sqrt normB;
    Math.Div dot (sa * sb)%R.

(** The last loop of [Do]: [scores[i] = cosineSimilarity(tfIdf[0], vec)]. *)
Fixpoint score_loop (tfIdf : list (list float64)) (i : nat)
    (tfIdfVec : list (list float64)) (scores : list float64) : exec (list float64) :=
  match tfIdfVec with
  | [] => Done scores
  | vec :: rest =>
      q ← index tfIdf 0;
      s ← cosineSimilarity q vec;
      scores' ← assign scores i s;
      score_loop tfIdf (S i) rest scores'
  end.

Definition Do (c : CosineSimilarity) (input : string) (documents : list string)
    : exec (list float64 * option error) :=
  '(vocabulary, tokens, err) ← Tokenize (tokenizer_ c) documents;
  match err with
  | Some e => Done ([], Some e)
  | None =>
      let tfVec := Tfidf.Tf vocabulary tokens in
      idfVec ← Tfidf.Idf vocabulary tokens true;
      '(tfIdfVec, err) ← TfIdf (vectorizer_ c) tfVec idfVec;
      match err with
      | Some e => Done ([], Some e)
      | None =>
          '(_, queryTokens, err) ← Tokenize (tokenizer_ c) [input];
          match err with
          | Some e => Done ([], Some e)
          | None =>
              let tf := Tfidf.Tf vocabulary queryTokens in
              '(tfIdf, err) ← TfIdf (vectorizer_ c) tf idfVec;
              match err with
              | Some e => Done ([], Some e)
              | None =>
                  scores ← score_loop tfIdf 0 tfIdfVec
                             (replicate (length documents) 0%R);
                  Done (scores, None)
              end
          end
      end
  end.

(** The library's tokenizer and vectorizer as implementations of the two
    interfaces. *)
Definition of_Tokenizer (Letter : Z -> bool) (t : Token.Tokenizer) : tokenizer :=
  {| Tokenize := fun documents =>
       let '(vocabulary, tokens) := Token.Tokenize Letter t documents in
       Done (vocabulary, tokens, None) |}.

Definition of_TfIdfVectorizer (t : Tfidf.TfIdfVectorizer) : vectorizer :=
  {| TfIdf := Tfidf.TfIdf t |}.

End Similarity.

(** * Notions used by the statements *)

(** Occurrences of a term in a token sequence. *)
Definition occurrences (term : string) (doc : list string) : nat :=
  length (filter (fun token => token = term) doc).

(** The document frequency of a term: the number of documents that contain
    it at least once. *)
Definition df (term : string) (tokens : list (list string)) : nat :=
  length (filter (fun doc => term ∈ doc) tokens).

(** The weight of a term of document frequency [d] in a corpus of [N]
    documents, case by case as the documentation of [Idf] gives it. *)
Definition idf_weight (N d : nat) (smoothing : bool) : R :=
  if (N =? 0)%nat then 1%R
  else if smoothing then (ln (INR (N + 1) / INR (d + 1)) + 1)%R
  else if (d =? 0)%nat then (ln (INR N) + 1)%R
  else (ln (INR N / INR d) + 1)%R.

(** A row all of whose entries are zero. *)
Definition zero_row (vec : list R) : Prop := Forall (fun v => v = 0%R) vec.

(** The sum of the absolute values, the sum of the squares and the
    Euclidean norm of a row; the dot product of two rows. *)
Definition norm1 (vec : list R) : R := fold_right (fun v s => Rabs v + s)%R 0%R vec.

Definition sumsq (vec : list R) : R := fold_right (fun v s => v * v + s)%R 0%R vec.

Definition norm2 (vec : list R) : R := sqrt (sumsq vec).

Fixpoint dot (a b : list R) : R :=
  match a, b with
  | x :: a', y :: b' => (x * y + dot a' b')%R
  | _, _ => 0%R
  end.

(** The normalization levels that [doNormalize] recognises. *)
Definition recognised (lvl : Z) : Prop :=
  lvl = Tfidf.NoNorm \/ lvl = Tfidf.L1Norm \/ lvl = Tfidf.L2Norm.

(** Two matrices of the same shape: as many rows, and rows of the same
    lengths. *)
Definition same_shape (m m' : list (list R)) : Prop :=
  Forall2 (fun row row' => length row = length row') m m'.

(** The maximal runs of letters of a document.  [letter_runs cur ps] reads
    the decoded code points [ps] with the run [cur] open: a letter extends
    the run, anything else closes it. *)
Definition close_run (cur : string) : list string :=
  match cur with
  | EmptyString => []
  | String _ _ => [cur]
  end.

Fixpoint letter_runs (Letter : Z -> bool) (cur : string) (ps : list (Z * string))
    : list string :=
  match ps with
  | [] => close_run cur
  | (r, bs) :: ps' =>
      if Unicode.IsLetter Letter r then letter_runs Letter (cur +:+ bs) ps'
      else close_run cur ++ letter_runs Letter EmptyString ps'
  end.

Definition maximal_letter_runs (Letter : Z -> bool) (doc : string) : list string :=
  letter_runs Letter EmptyString (Utf8.split doc).

(** The run of letters open at offset [i] of a document, for the value of
    [start] in the loop of [tokenize]. *)
Definition open_run (doc : string) (start i : Z) (cur : string) : Prop :=
  (start = -1 /\ cur = EmptyString) \/ (0 <= start < i /\ cur = slice doc start i).

(** The order [<] of Go on strings: byte by byte, a proper prefix first. *)
Definition string_lt (s1 s2 : string) : Prop := String.compare s1 s2 = Lt.

(** The well-formed UTF-8 byte sequences and the code point each one
    encodes (table 3-7 of the Unicode standard). *)
Inductive Encoded : list Z -> Z -> Prop :=
  | Encoded1 (b0 : Z) :
      0 <= b0 < 0x80 -> Encoded [b0] b0
  | Encoded2 (b0 b1 : Z) :
      0xC2 <= b0 <= 0xDF -> 0x80 <= b1 <= 0xBF ->
      Encoded [b0; b1] ((b0 - 0xC0) * 64 + (b1 - 0x80))
  | Encoded3 (b0 b1 b2 : Z) :
      0xE0 <= b0 <= 0xEF -> 0x80 <= b1 <= 0xBF -> 0x80 <= b2 <= 0xBF ->
      (b0 = 0xE0 -> 0xA0 <= b1) -> (b0 = 0xED -> b1 <= 0x9F) ->
      Encoded [b0; b1; b2] ((b0 - 0xE0) * 4096 + (b1 - 0x80) * 64 + (b2 - 0x80))
  | Encoded4 (b0 b1 b2 b3 : Z) :
      0xF0 <= b0 <= 0xF4 -> 0x80 <= b1 <= 0xBF -> 0x80 <= b2 <= 0xBF ->
      0x80 <= b3 <= 0xBF ->
      (b0 = 0xF0 -> 0x90 <= b1) -> (b0 = 0xF4 -> b1 <= 0x8F) ->
      Encoded [b0; b1; b2; b3]
        ((b0 - 0xF0) * 262144 + (b1 - 0x80) * 4096 + (b2 - 0x80) * 64 + (b3 - 0x80)).

(** Sequences of bytes in lexicographic order. *)
Fixpoint bytes_compare (a b : list Z) : comparison :=
  match a, b with
  | [], [] => Eq
  | [], _ :: _ => Lt
  | _ :: _, [] => Gt
  | x :: a', y :: b' =>
      match x ?= y with
      | Eq => bytes_compare a' b'
      | c => c
      end
  end.

(** Sequences of code points in lexicographic order. *)
Fixpoint lex_compare (a b : list Z) : comparison :=
  match a, b with
  | [], [] => Eq
  | [], _ :: _ => Lt
  | _ :: _, [] => Gt
  | x :: a', y :: b' =>
      match x ?= y with
      | Eq => lex_compare a' b'
      | c => c
      end
  end.

(** The order of two well-formed strings by code points. *)
Definition codepoint_lt (s1 s2 : string) : Prop :=
  Utf8.ValidString s1 = true -> Utf8.ValidString s2 = true ->
  lex_compare (Utf8.runes s1) (Utf8.runes s2) = Lt.

(** The terms of a corpus: the tokens of all its documents. *)
Definition terms_of (tokens : list (list string)) : list string := concat tokens.

(** The invariant of the loops of [vocabulary]: the slice of terms has no
    duplicates and holds the elements of the set. *)
Definition vocabulary_inv (st : gset string * list string) : Prop :=
  NoDup st.2 /\ forall x, x ∈ st.1 <-> x ∈ st.2.

(** A row normalized at a recognised level, as the documentation of the
    vectorizer gives it: unchanged at [NoNorm]; divided by the sum of the
    absolute values at [L1Norm] and by the Euclidean norm at [L2Norm],
    unless that norm is zero. *)
Definition normalize_row (lvl : Z) (vec : list R) : list R :=
  if lvl =? Tfidf.L1Norm then
    if decide (norm1 vec = 0%R) then vec else map (fun val => val / norm1 vec)%R vec
  else if lvl =? Tfidf.L2Norm then
    if decide (norm2 vec = 0%R) then vec else map (fun val => val / norm2 vec)%R vec
  else vec.

(** The TF-IDF row of a document: the products [tf[j] * idf[j]], normalized. *)
Definition tfidf_row (lvl : Z) (idfVec row : list R) : list R :=
  normalize_row lvl (zip_with Rmult row idfVec).

(** The tokenizer and the vectorizer of the test of [Do]: lowercasing, and
    the default level [L2Norm]. *)
Definition lower_tokenizer : Token.Tokenizer :=
  Token.NewTokenizer [Token.WithNormalizeFunc Strings.ToLower].

Definition default_engine (Letter : Z -> bool) : Similarity.CosineSimilarity :=
  Similarity.NewCosineSimilarity
    (Similarity.of_Tokenizer Letter lower_tokenizer)
    (Similarity.of_TfIdfVectorizer (Tfidf.NewTfIdfVectorizer [])).

(** The letter U+00E9, two bytes in UTF-8. *)
Definition e_acute : string := String "195" (String "169" EmptyString).

(** * Further notions *)

(** The sum of the entries of a row. *)
Definition sum_list (l : list R) : R := fold_right Rplus 0%R l.

(** A letter run as [tokenize] keeps it when no normalization function is
    set. *)
Definition raw_tokenizer : Token.Tokenizer := Token.NewTokenizer [].

(** A string of letters: not empty, well-formed UTF-8, and every code point
    a letter. *)
Definition letters_only (Letter : Z -> bool) (s : string) : Prop :=
  s <> EmptyString /\ Utf8.ValidString s = true /\
  Forall (fun r => Unicode.IsLetter Letter r = true) (Utf8.runes s).

(** The cosine of the angle of two vectors, 0 when either is the zero
    vector. *)
Definition cosine (a b : list R) : R :=
  if decide (sumsq a = 0%R \/ sumsq b = 0%R) then 0%R
  else (dot a b / (sqrt (sumsq a) * sqrt (sumsq b)))%R.

(** The engine built from the library's tokenizer and vectorizer. *)
Definition library_engine (Letter : Z -> bool) (t : Token.Tokenizer)
    (v : Tfidf.TfIdfVectorizer) : Similarity.CosineSimilarity :=
  Similarity.NewCosineSimilarity
    (Similarity.of_Tokenizer Letter t) (Similarity.of_TfIdfVectorizer v).

(** The tokens [Tokenize] gives for a single document. *)
Definition doc_tokens (Letter : Z -> bool) (t : Token.Tokenizer) (doc : string)
    : list string :=
  concat (Token.Tokenize Letter t [doc]).2.

(** The row of the products of the counts of the terms in [doc] with the
    smoothed weights of the terms in [corpus]. *)
Definition weighted_row (vocabulary : list string) (corpus : list (list string))
    (doc : list string) : list R :=
  map (fun term => (INR (occurrences term doc)
                    * idf_weight (length corpus) (df term corpus) true)%R) vocabulary.

(** * Package [token], the tokenizer on a regular expression *)

Module TokenPattern.

(** Words of two Unicode letters or more, without regard to case. *)
Definition defaultTokenPattern : string := "(?i)\p{L}{2,}".

Record Tokenizer : Type :=
  { tokenPattern : string; normalizeFunc : option (string -> string) }.

Definition TokenizerOption : Type := Tokenizer -> Tokenizer.

Definition WithTokenPattern (pattern : string) : TokenizerOption :=
  fun t => {| tokenPattern := pattern; normalizeFunc := normalizeFunc t |}.

Definition WithNormalizeFunc (fn : string -> string) : TokenizerOption :=
  fun t => {| tokenPattern := tokenPattern t; normalizeFunc := Some fn |}.

Definition NewTokenizer (opts : list TokenizerOption) : Tokenizer :=
  fold_left (fun t opt => opt t) opts
            {| tokenPattern := defaultTokenPattern; normalizeFunc := None |}.

Section Regexp.

(** Package [regexp]: the compiled expressions, the errors of [Compile],
    and [FindAllString] with [n = -1]. *)
Context {Regexp syntax_error : Type}.
Variable Compile : string -> Regexp + syntax_error.
Variable FindAllString : Regexp -> string -> list string.

Definition tokenize (t : Tokenizer) (doc : string)
    : list string * option syntax_error :=
  match Compile (tokenPattern t) with
  | inr err => ([], Some err)
  | inl r =>
      let terms := FindAllString r doc in
      match normalizeFunc t with
      | None => (terms, None)
      | Some f => (map f terms, None)
      end
  end.

(** The loop of [Tokenize] over the documents, with the rows of tokens
    filled so far. *)
Fixpoint Tokenize_loop (t : Tokenizer) (documents : list string)
    (tokens : list (list string)) : list (list string) * option syntax_error :=
  match documents with
  | [] => (tokens, None)
  | doc :: rest =>
      match tokenize t doc with
      | (_, Some err) => ([], Some err)
      | (tkns, None) => Tokenize_loop t rest (tokens ++ [tkns])
      end
  end.

Definition Tokenize (t : Tokenizer) (documents : list string)
    : list string * list (list string) * option syntax_error :=
  match Tokenize_loop t documents [] with
  | (_, Some err) => ([], [], Some err)
  | (tokens, None) => (Token.vocabulary tokens, tokens, None)
  end.

End Regexp.

End TokenPattern.

(** * Properties *)

(** ** The monad of executions *)

Lemma bind_Done {A B} (a : A) (k : A -> exec B) : (Done a ≫= k) = k a.
Proof. reflexivity. Qed.

Lemma bind_Fault {A B} (f : fault) (k : A -> exec B) : (Fault f ≫= k) = Fault f.
Proof. reflexivity. Qed.

Lemma bind_Done_inv {A B} (r : exec A) (k : A -> exec B) (b : B) :
  (r ≫= k) = Done b -> exists a, r = Done a /\ k a = Done b.
Proof. destruct r as [a|f]; simpl; [eauto | discriminate]. Qed.

Lemma mapM_cons {A B} (f : A -> exec B) (a : A) (l : list A) :
  mapM f (a :: l) = (b ← f a; bs ← mapM f l; Done (b :: bs)).
Proof. reflexivity. Qed.

(** [mapM] of a function that never stops on a fault is [map]. *)
Lemma mapM_Done {A B} (f : A -> exec B) (g : A -> B) (l : list A) :
  Forall (fun a => f a = Done (g a)) l -> mapM f l = Done (map g l).
Proof.
  induction 1 as [|a l Ha _ IH]; [reflexivity|].
  rewrite mapM_cons, Ha, bind_Done, IH. reflexivity.
Qed.

Lemma mapM_Done_inv {A B} (f : A -> exec B) (l : list A) (k : list B) :
  mapM f l = Done k -> Forall2 (fun a b => f a = Done b) l k.
Proof.
  revert k. induction l as [|a l IH]; intros k H.
  - injection H as <-. constructor.
  - rewrite mapM_cons in H.
    apply bind_Done_inv in H as (b & Hb & H).
    apply bind_Done_inv in H as (bs & Hbs & H).
    injection H as <-. constructor; auto.
Qed.

(** Lookup in a [map]. *)
Lemma lookup_map {A B} (f : A -> B) (l : list A) (i : nat) :
  map f l !! i = f <$> l !! i.
Proof.
  revert i. induction l as [|a l IH]; intros [|i]; simpl; auto.
Qed.

Lemma index_Done {A} (l : list A) (i : nat) (x : A) :
  l !! i = Some x -> index l i = Done x.
Proof. unfold index. intros ->. reflexivity. Qed.

Lemma index_Fault {A} (l : list A) (i : nat) :
  (length l <= i)%nat -> index l i = Fault IndexOutOfRange.
Proof. unfold index. intros H. rewrite (lookup_ge_None_2 l i H). reflexivity. Qed.

(** ** UTF-8: the order of the bytes is the order of the code points *)

Section Utf8Order.

Import Utf8.

(** Masks and shifts as arithmetic. *)
Lemma land_low (b k : Z) (n : Z) :
  0 <= n -> 0 <= k -> k * 2 ^ n <= b < (k + 1) * 2 ^ n ->
  Z.land b (Z.ones n) = b - k * 2 ^ n.
Proof.
  intros Hn Hk Hb. rewrite Z.land_ones by assumption.
  symmetry. apply Z.mod_unique_pos with k; lia.
Qed.

Lemma lor_shiftl (a b n : Z) :
  0 <= n -> 0 <= b < 2 ^ n -> Z.lor (Z.shiftl a n) b = a * 2 ^ n + b.
Proof.
  intros Hn Hb.
  assert (Hland : Z.land (Z.shiftl a n) b = 0).
  { apply Z.bits_inj'. intros k Hk. rewrite Z.land_spec, Z.bits_0.
    destruct (Z_lt_le_dec k n) as [Hlt|Hle].
    - rewrite Z.shiftl_spec_low by assumption. reflexivity.
    - rewrite <- (Z.mod_small b (2 ^ n)) by assumption.
      rewrite Z.mod_pow2_bits_high by lia. apply andb_false_r. }
  rewrite <- Z.lxor_lor by assumption.
  rewrite <- Z.add_nocarry_lxor by assumption.
  rewrite Z.shiftl_mul_pow2 by assumption. reflexivity.
Qed.

Lemma lor_mul (a b n : Z) :
  0 <= n -> 0 <= b < 2 ^ n -> Z.lor (a * 2 ^ n) b = a * 2 ^ n + b.
Proof.
  intros Hn Hb. rewrite <- Z.shiftl_mul_pow2 by assumption.
  rewrite lor_shiftl by assumption. rewrite Z.shiftl_mul_pow2 by assumption.
  reflexivity.
Qed.

Lemma land_cont (b : Z) : 0x80 <= b <= 0xBF -> Z.land b 0x3F = b - 0x80.
Proof. intros H. apply (land_low b 2 6); lia. Qed.

Lemma land_lead2 (b : Z) : 0xC0 <= b <= 0xDF -> Z.land b 0x1F = b - 0xC0.
Proof. intros H. apply (land_low b 6 5); lia. Qed.

Lemma land_lead3 (b : Z) : 0xE0 <= b <= 0xEF -> Z.land b 0x0F = b - 0xE0.
Proof. intros H. apply (land_low b 14 4); lia. Qed.

Lemma land_lead4 (b : Z) : 0xF0 <= b <= 0xF7 -> Z.land b 0x07 = b - 0xF0.
Proof. intros H. apply (land_low b 30 3); lia. Qed.

Lemma decode2 (s0 s1 : Z) :
  0xC0 <= s0 <= 0xDF -> 0x80 <= s1 <= 0xBF ->
  Z.lor (Z.shiftl (Z.land s0 0x1F) 6) (Z.land s1 0x3F)
  = (s0 - 0xC0) * 64 + (s1 - 0x80).
Proof.
  intros H0 H1. rewrite (land_cont s1 H1).
  rewrite (land_lead2 s0 H0).
  rewrite lor_shiftl by lia. lia.
Qed.

Lemma decode3 (s0 s1 s2 : Z) :
  0xE0 <= s0 <= 0xEF -> 0x80 <= s1 <= 0xBF -> 0x80 <= s2 <= 0xBF ->
  Z.lor (Z.lor (Z.shiftl (Z.land s0 0x0F) 12) (Z.shiftl (Z.land s1 0x3F) 6))
        (Z.land s2 0x3F)
  = (s0 - 0xE0) * 4096 + (s1 - 0x80) * 64 + (s2 - 0x80).
Proof.
  intros H0 H1 H2. rewrite (land_cont s1 H1), (land_cont s2 H2).
  rewrite (land_lead3 s0 H0).
  rewrite (Z.shiftl_mul_pow2 (s1 - 0x80) 6) by lia.
  rewrite lor_shiftl by lia.
  replace ((s0 - 224) * 2 ^ 12 + (s1 - 128) * 2 ^ 6)
    with (((s0 - 224) * 64 + (s1 - 128)) * 2 ^ 6) by lia.
  rewrite lor_mul by lia. lia.
Qed.

Lemma decode4 (s0 s1 s2 s3 : Z) :
  0xF0 <= s0 <= 0xF7 -> 0x80 <= s1 <= 0xBF -> 0x80 <= s2 <= 0xBF ->
  0x80 <= s3 <= 0xBF ->
  Z.lor (Z.lor (Z.lor (Z.shiftl (Z.land s0 0x07) 18) (Z.shiftl (Z.land s1 0x3F) 12))
               (Z.shiftl (Z.land s2 0x3F) 6))
        (Z.land s3 0x3F)
  = (s0 - 0xF0) * 262144 + (s1 - 0x80) * 4096 + (s2 - 0x80) * 64 + (s3 - 0x80).
Proof.
  intros H0 H1 H2 H3.
  rewrite (land_cont s1 H1), (land_cont s2 H2), (land_cont s3 H3).
  rewrite (land_lead4 s0 H0).
  rewrite (Z.shiftl_mul_pow2 (s1 - 0x80) 12) by lia.
  rewrite (Z.shiftl_mul_pow2 (s2 - 0x80) 6) by lia.
  rewrite lor_shiftl by lia.
  replace ((s0 - 240) * 2 ^ 18 + (s1 - 128) * 2 ^ 12)
    with (((s0 - 240) * 64 + (s1 - 128)) * 2 ^ 12) by lia.
  rewrite lor_mul by lia.
  replace (((s0 - 240) * 64 + (s1 - 128)) * 2 ^ 12 + (s2 - 128) * 2 ^ 6)
    with ((((s0 - 240) * 64 + (s1 - 128)) * 64 + (s2 - 128)) * 2 ^ 6) by lia.
  rewrite lor_mul by lia. lia.
Qed.

Ltac zbools :=
  repeat match goal with
  | |- context [?a <? ?b] => destruct (Z.ltb_spec a b)
  | |- context [?a <=? ?b] => destruct (Z.leb_spec a b)
  | |- context [?a =? ?b] => destruct (Z.eqb_spec a b)
  end.

(** Every step of the decoding takes at least one byte and no more than
    there are. *)
Lemma DecodeRune_width (p : list Z) :
  p <> [] -> (1 <= (DecodeRune p).2 <= length p)%nat.
Proof.
  destruct p as [|s0 [|s1 [|s2 [|s3 rest]]]]; [congruence|..]; intros _;
    unfold DecodeRune, first, cont, locb, hicb;
    zbools; simpl; lia.
Qed.

(** A step of the decoding that is not the [RuneError] of an ill-formed
    sequence has read a well-formed sequence and returns its code point. *)
Lemma DecodeRune_Encoded (p : list Z) (r : Z) (w : nat) :
  Forall (fun b => 0 <= b < 256) p -> p <> [] ->
  DecodeRune p = (r, w) -> ~ (r = RuneError /\ w = 1%nat) ->
  Encoded (take w p) r.
Proof.
  intros Hb Hne Hd Hok.
  destruct p as [|s0 [|s1 [|s2 [|s3 rest]]]]; [congruence|..];
    repeat match goal with
    | H : Forall _ (_ :: _) |- _ => apply Forall_cons in H as [? H]
    end;
    revert Hd; unfold DecodeRune, first, cont, locb, hicb;
    zbools; simpl; intros Hd; injection Hd as <- <-;
    try (exfalso; apply Hok; split; reflexivity); simpl take;
    first [ apply Encoded1; lia
          | rewrite decode2 by lia; apply Encoded2; lia
          | rewrite decode3 by lia; apply Encoded3; lia
          | rewrite decode4 by lia; apply Encoded4; lia ].
Qed.

(** Two byte sequences that start with well-formed sequences compare as
    the code points of these, and then as what follows them. *)
Lemma Encoded_compare (p1 p2 rest1 rest2 : list Z) (r1 r2 : Z) :
  Encoded p1 r1 -> Encoded p2 r2 ->
  bytes_compare (p1 ++ rest1) (p2 ++ rest2)
  = match r1 ?= r2 with
    | Eq => bytes_compare rest1 rest2
    | c => c
    end.
Proof.
  intros H1 H2. destruct H1, H2; simpl;
    repeat (match goal with
            | |- context [?a ?= ?b] => destruct (Z.compare_spec a b)
            end; try (exfalso; lia); simpl);
    reflexivity.
Qed.

(** A well-formed sequence decodes as its code point, whatever follows. *)
Lemma Encoded_DecodeRune (p rest : list Z) (r : Z) :
  Encoded p r -> DecodeRune (p ++ rest) = (r, length p).
Proof.
  intros H. destruct H; simpl app; unfold DecodeRune, first, cont, locb, hicb;
    zbools; try (exfalso; lia); simpl;
    first [ reflexivity
          | rewrite decode2 by lia; reflexivity
          | rewrite decode3 by lia; reflexivity
          | rewrite decode4 by lia; reflexivity ].
Qed.

Lemma Encoded_length (p : list Z) (r : Z) : Encoded p r -> (1 <= length p)%nat.
Proof. intros H. destruct H; simpl; lia. Qed.

Lemma Encoded_single (p : list Z) (r : Z) :
  Encoded p r -> length p = 1%nat -> r <> RuneError.
Proof. intros H. destruct H; simpl; intros Hl; try discriminate. unfold RuneError. lia. Qed.

(** From strings to their bytes. *)
Lemma compare_bytes (s t : string) :
  String.compare s t = bytes_compare (bytes s) (bytes t).
Proof.
  revert t. induction s as [|c s IH]; intros [|c' t]; simpl; try reflexivity.
  rewrite IH. unfold Ascii.compare, byte_val. rewrite N2Z.inj_compare. reflexivity.
Qed.

Lemma bytes_bounded (s : string) : Forall (fun b => 0 <= b < 256) (bytes s).
Proof.
  induction s as [|c s IH]; constructor; [|exact IH].
  unfold byte_val. pose proof (N_ascii_bounded c). lia.
Qed.

Lemma bytes_skip (w : nat) (s : string) : bytes (skip w s) = drop w (bytes s).
Proof.
  revert s. induction w as [|w IH]; intros [|c s]; simpl; try reflexivity.
  apply IH.
Qed.

Lemma length_bytes (s : string) : length (bytes s) = String.length s.
Proof. induction s as [|c s IH]; simpl; [reflexivity|]. f_equal. exact IH. Qed.

Lemma length_skip (w : nat) (s : string) :
  String.length (skip w s) = (String.length s - w)%nat.
Proof. rewrite <- !length_bytes, bytes_skip. apply length_drop. Qed.

Lemma DecodeRuneInString_width (c : ascii) (s : string) :
  (1 <= (DecodeRuneInString (String c s)).2 <= String.length (String c s))%nat.
Proof.
  unfold DecodeRuneInString. rewrite <- length_bytes.
  apply DecodeRune_width. discriminate.
Qed.

(** With fuel enough for both, two well-formed strings compare byte by byte
    as their code points do. *)
Lemma compare_runes_fuel (n : nat) :
  forall (s t : string) (f1 f2 : nat) (i j : Z),
    (String.length s <= n)%nat -> (String.length t <= n)%nat ->
    (String.length s <= f1)%nat -> (String.length t <= f2)%nat ->
    valid_from f1 s = true -> valid_from f2 t = true ->
    String.compare s t
    = lex_compare (map snd (range_from f1 i s)) (map snd (range_from f2 j t)).
Proof.
  induction n as [|n IH]; intros s t f1 f2 i j Hs Ht Hf1 Hf2 Hv1 Hv2.
  - destruct s, t; simpl in Hs, Ht; try lia. destruct f1, f2; reflexivity.
  - destruct s as [|c s], t as [|c' t].
    + destruct f1, f2; reflexivity.
    + destruct f2 as [|f2]; [simpl in Hf2; lia|].
      destruct f1; simpl; destruct (DecodeRuneInString _); reflexivity.
    + destruct f1 as [|f1]; [simpl in Hf1; lia|].
      destruct f2; simpl; destruct (DecodeRuneInString _); reflexivity.
    + destruct f1 as [|f1]; [simpl in Hf1; lia|].
      destruct f2 as [|f2]; [simpl in Hf2; lia|].
      pose proof (DecodeRuneInString_width c s) as Hw1.
      pose proof (DecodeRuneInString_width c' t) as Hw2.
      cbn [valid_from range_from] in *.
      destruct (DecodeRuneInString (String c s)) as [r1 w1] eqn:Hd1.
      destruct (DecodeRuneInString (String c' t)) as [r2 w2] eqn:Hd2.
      cbn [fst snd map lex_compare] in *.
      apply andb_true_iff in Hv1 as [Hok1 Hv1], Hv2 as [Hok2 Hv2].
      assert (He1 : Encoded (take w1 (bytes (String c s))) r1).
      { apply DecodeRune_Encoded; [apply bytes_bounded|discriminate|exact Hd1|].
        intros [-> ->]. rewrite Z.eqb_refl in Hok1. discriminate. }
      assert (He2 : Encoded (take w2 (bytes (String c' t))) r2).
      { apply DecodeRune_Encoded; [apply bytes_bounded|discriminate|exact Hd2|].
        intros [-> ->]. rewrite Z.eqb_refl in Hok2. discriminate. }
      rewrite compare_bytes.
      rewrite <- (take_drop w1 (bytes (String c s))) at 1.
      rewrite <- (take_drop w2 (bytes (String c' t))) at 1.
      rewrite (Encoded_compare _ _ _ _ _ _ He1 He2).
      rewrite <- !bytes_skip, <- compare_bytes.
      rewrite (IH (skip w1 (String c s)) (skip w2 (String c' t)) f1 f2
                  (i + Z.of_nat w1) (j + Z.of_nat w2)); [reflexivity|..];
        try assumption; rewrite length_skip; simpl in *; lia.
Qed.

(** For well-formed strings the order of Go, byte by byte, is the order of
    the sequences of code points. *)
Lemma compare_runes (s t : string) :
  ValidString s = true -> ValidString t = true ->
  String.compare s t = lex_compare (runes s) (runes t).
Proof.
  intros Hs Ht. unfold runes, range.
  apply (compare_runes_fuel (Nat.max (String.length s) (String.length t)));
    try assumption; lia.
Qed.

Lemma string_lt_codepoint_lt (s t : string) : string_lt s t -> codepoint_lt s t.
Proof.
  unfold string_lt, codepoint_lt. intros Hlt Hs Ht.
  rewrite <- (compare_runes s t Hs Ht). exact Hlt.
Qed.

Lemma list_of_append (s1 s2 : string) :
  list_ascii_of_string (s1 +:+ s2) = list_ascii_of_string s1 ++ list_ascii_of_string s2.
Proof. induction s1 as [|c s1 IH]; simpl; [reflexivity|]. f_equal. exact IH. Qed.

Lemma list_of_length (s : string) : length (list_ascii_of_string s) = String.length s.
Proof. induction s as [|c s IH]; simpl; [reflexivity|]. f_equal. exact IH. Qed.

Lemma bytes_append (s1 s2 : string) : bytes (s1 +:+ s2) = bytes s1 ++ bytes s2.
Proof. unfold bytes. rewrite list_of_append. apply map_app. Qed.

Lemma skip_append (s1 s2 : string) : skip (String.length s1) (s1 +:+ s2) = s2.
Proof. induction s1 as [|c s1 IH]; simpl; [destruct s2; reflexivity|exact IH]. Qed.

(** Fuel beyond the length of the string changes nothing. *)
Lemma valid_from_fuel (f : nat) :
  forall (f' : nat) (s : string),
    (String.length s <= f)%nat -> (String.length s <= f')%nat ->
    valid_from f s = valid_from f' s.
Proof.
  induction f as [|f IH]; intros f' s Hf Hf'.
  - destruct s; [|simpl in Hf; lia]. destruct f'; reflexivity.
  - destruct s as [|c s]; [destruct f'; reflexivity|].
    destruct f' as [|f']; [simpl in Hf'; lia|].
    pose proof (DecodeRuneInString_width c s) as Hw.
    cbn [valid_from]. destruct (DecodeRuneInString (String c s)) as [r w].
    f_equal. apply IH; rewrite length_skip; simpl in *; lia.
Qed.

(** A well-formed sequence in front of a well-formed string. *)
Lemma ValidString_cons (bs s : string) (r : Z) :
  Encoded (bytes bs) r -> ValidString s = true -> ValidString (bs +:+ s) = true.
Proof.
  intros He Hs. unfold ValidString in *.
  pose proof (Encoded_length _ _ He) as Hl. rewrite length_bytes in Hl.
  destruct (bs +:+ s) as [|c s'] eqn:Heq.
  { reflexivity. }
  cbn [String.length valid_from]. rewrite <- Heq.
  unfold DecodeRuneInString. rewrite bytes_append, (Encoded_DecodeRune _ _ _ He).
  rewrite length_bytes, skip_append.
  assert (Hlen : String.length s' = (String.length bs + String.length s - 1)%nat).
  { apply (f_equal String.length) in Heq. rewrite <- !list_of_length in *.
    rewrite list_of_append in Heq. rewrite length_app in Heq. simpl in Heq. lia. }
  rewrite (valid_from_fuel _ (String.length s)) by lia.
  rewrite Hs, andb_true_r.
  destruct (Nat.eqb_spec (String.length bs) 1) as [H1|H1]; [|apply negb_true_iff, andb_false_r].
  apply negb_true_iff, andb_false_iff. left. apply Z.eqb_neq.
  apply (Encoded_single _ _ He). rewrite length_bytes. exact H1.
Qed.

Lemma bytes_prefix (w : nat) (s : string) : bytes (substring 0 w s) = take w (bytes s).
Proof.
  unfold bytes. revert w. induction s as [|c s IH]; intros [|w]; simpl; try reflexivity.
  f_equal. apply IH.
Qed.

Lemma prefix_skip (w : nat) (s : string) : substring 0 w s +:+ skip w s = s.
Proof.
  revert w. induction s as [|c s IH]; intros [|w]; try reflexivity.
  change (String c (substring 0 w s +:+ skip w s) = String c s).
  f_equal. apply IH.
Qed.

Lemma append_assoc (s1 s2 s3 : string) : (s1 +:+ s2) +:+ s3 = s1 +:+ (s2 +:+ s3).
Proof.
  induction s1 as [|c s1 IH]; [reflexivity|].
  change (String c ((s1 +:+ s2) +:+ s3) = String c (s1 +:+ (s2 +:+ s3))).
  f_equal. exact IH.
Qed.

(** Two well-formed strings, one after the other. *)
Lemma ValidString_append_fuel (n : nat) :
  forall s1 s2 : string,
    (String.length s1 <= n)%nat ->
    ValidString s1 = true -> ValidString s2 = true -> ValidString (s1 +:+ s2) = true.
Proof.
  induction n as [|n IH]; intros s1 s2 Hn H1 H2.
  - destruct s1; [exact H2|simpl in Hn; lia].
  - destruct s1 as [|c s1]; [exact H2|].
    pose proof (DecodeRuneInString_width c s1) as Hw.
    unfold ValidString in H1. cbn [String.length valid_from] in H1.
    destruct (DecodeRuneInString (String c s1)) as [r w] eqn:Hd.
    cbn [fst snd] in Hw. apply andb_true_iff in H1 as [Hok H1].
    rewrite <- (prefix_skip w (String c s1)), append_assoc.
    apply (ValidString_cons _ _ r).
    + rewrite bytes_prefix. apply DecodeRune_Encoded;
        [apply bytes_bounded|discriminate|exact Hd|].
      intros [-> ->]. rewrite Z.eqb_refl in Hok. discriminate.
    + apply IH; [rewrite length_skip; simpl in *; lia| |exact H2].
      unfold ValidString.
      rewrite (valid_from_fuel _ (String.length s1)); [exact H1| |];
        rewrite length_skip; simpl in *; lia.
Qed.

Lemma ValidString_append (s1 s2 : string) :
  ValidString s1 = true -> ValidString s2 = true -> ValidString (s1 +:+ s2) = true.
Proof. apply (ValidString_append_fuel (String.length s1)). lia. Qed.

End Utf8Order.

(** ** [tokenize]: the runs of letters it emits *)

Section TokenizeRuns.

Import Token.

Variable Letter : Z -> bool.
Variable t : Tokenizer.

(** Strings as lists of bytes. *)
Lemma list_of_substring (n m : nat) (s : string) :
  list_ascii_of_string (substring n m s) = take m (drop n (list_ascii_of_string s)).
Proof.
  revert n m. induction s as [|c s IH]; intros [|n] [|m]; simpl; try reflexivity.
  - f_equal. apply (IH 0%nat m).
  - apply (IH n 0%nat).
  - apply (IH n (S m)).
Qed.

Lemma list_of_skip (w : nat) (s : string) :
  list_ascii_of_string (skip w s) = drop w (list_ascii_of_string s).
Proof.
  revert s. induction w as [|w IH]; intros [|c s]; simpl; try reflexivity. apply IH.
Qed.

Lemma list_of_inj (s1 s2 : string) :
  list_ascii_of_string s1 = list_ascii_of_string s2 -> s1 = s2.
Proof.
  intros H. rewrite <- (string_of_list_ascii_of_string s1),
    <- (string_of_list_ascii_of_string s2), H. reflexivity.
Qed.

Lemma length_append (s1 s2 : string) :
  String.length (s1 +:+ s2) = (String.length s1 + String.length s2)%nat.
Proof. rewrite <- !list_of_length, list_of_append, length_app. reflexivity. Qed.

Lemma append_empty_r (s : string) : s +:+ EmptyString = s.
Proof. apply list_of_inj. rewrite list_of_append. apply app_nil_r. Qed.

Lemma length_substring (n m : nat) (s : string) :
  (n + m <= String.length s)%nat -> String.length (substring n m s) = m.
Proof.
  intros H. rewrite <- !list_of_length in *. rewrite list_of_substring.
  rewrite length_take, length_drop. lia.
Qed.

(** [doc[lo:hi]] where the document is cut at [hi]. *)
Lemma slice_at (pre rest : string) (w : nat) :
  slice (pre +:+ rest) (len pre) (len pre + Z.of_nat w) = substring 0 w rest.
Proof.
  unfold slice, len. apply list_of_inj.
  rewrite !list_of_substring, list_of_append.
  replace (Z.to_nat (Z.of_nat (String.length pre))) with (length (list_ascii_of_string pre))
    by (rewrite list_of_length; lia).
  rewrite drop_app_length. simpl. f_equal. lia.
Qed.

Lemma slice_extend (pre rest : string) (start : Z) (w : nat) :
  0 <= start <= len pre ->
  slice (pre +:+ rest) start (len pre + Z.of_nat w)
  = slice (pre +:+ rest) start (len pre) +:+ substring 0 w rest.
Proof.
  intros Hs. rewrite <- (slice_at pre rest w).
  unfold slice, len in *. apply list_of_inj.
  rewrite list_of_append, !list_of_substring.
  set (l := list_ascii_of_string (pre +:+ rest)).
  replace (Z.to_nat (Z.of_nat (String.length pre) + Z.of_nat w - start))
    with (Z.to_nat (Z.of_nat (String.length pre) - start) + w)%nat by lia.
  rewrite <- take_take_drop, drop_drop. f_equal. f_equal; [lia|]. f_equal. lia.
Qed.

(** The steps of the decoding cover the string: the fuel is enough. *)
Lemma split_from_covers (fuel : nat) :
  forall s : string,
    (String.length s <= fuel)%nat ->
    fold_right (fun (p : Z * string) acc => p.2 +:+ acc) EmptyString
               (Utf8.split_from fuel s) = s.
Proof.
  induction fuel as [|fuel IH]; intros s Hs.
  - destruct s; [reflexivity|simpl in Hs; lia].
  - destruct s as [|c s]; [reflexivity|].
    pose proof (DecodeRuneInString_width c s) as Hw.
    cbn [Utf8.split_from].
    destruct (Utf8.DecodeRuneInString (String c s)) as [r w].
    cbn [fold_right fst snd] in *. rewrite IH.
    + apply prefix_skip.
    + rewrite length_skip. simpl in *. lia.
Qed.

(** Closing a run: the token appended, if the run is at least two bytes
    long. *)
Lemma close_run_eq (doc : string) (start i : Z) (cur : string) (tokens : list string) :
  open_run doc start i cur -> 0 <= i <= len doc ->
  (if negb (start =? -1) && (1 <? i - start)
   then tokens ++ [doNormalize t (slice doc start i)] else tokens)
  = tokens ++ map (doNormalize t) (filter (fun run => 1 < len run) (close_run cur)).
Proof.
  intros [[-> ->]|[Hs ->]] Hi.
  - simpl. rewrite app_nil_r. reflexivity.
  - assert (Hlen : len (slice doc start i) = i - start).
    { unfold len, slice in *. rewrite length_substring; lia. }
    destruct (slice doc start i) as [|c cur] eqn:Hcur.
    { unfold len in Hlen. simpl in Hlen. lia. }
    destruct (Z.eqb_spec start (-1)) as [|_]; [lia|].
    cbn [negb andb close_run]. rewrite filter_cons, filter_nil.
    destruct (Z.ltb_spec 1 (i - start)) as [Hlt|Hge];
      destruct (decide (1 < len (String c cur))) as [Hd|Hd]; try lia.
    + reflexivity.
    + simpl. rewrite app_nil_r. reflexivity.
Qed.

(** The loop of [tokenize] from the offset [len pre], with the run [cur]
    open, followed by the handling of the trailing token. *)
Lemma tokenize_loop (fuel : nat) :
  forall (pre rest : string) (start : Z) (tokens : list string) (cur : string),
    (String.length rest <= fuel)%nat ->
    open_run (pre +:+ rest) start (len pre) cur ->
    (let '(start', tokens') :=
       fold_left (tokenize_step Letter t (pre +:+ rest))
                 (Utf8.range_from fuel (len pre) rest) (start, tokens) in
     if negb (start' =? -1) && (1 <? len (pre +:+ rest) - start')
     then tokens' ++ [doNormalize t (slice (pre +:+ rest) start' (len (pre +:+ rest)))]
     else tokens')
    = tokens ++ map (doNormalize t)
                    (filter (fun run => 1 < len run)
                            (letter_runs Letter cur (Utf8.split_from fuel rest))).
Proof.
  induction fuel as [|fuel IH]; intros pre rest start tokens cur Hfuel Hrun.
  - destruct rest as [|c rest]; [|simpl in Hfuel; lia].
    rewrite append_empty_r in *. simpl.
    apply (close_run_eq _ _ _ _ _ Hrun). unfold len. lia.
  - destruct rest as [|c rest].
    { rewrite append_empty_r in *. simpl.
      apply (close_run_eq _ _ _ _ _ Hrun). unfold len. lia. }
    pose proof (DecodeRuneInString_width c rest) as Hw.
    cbn [Utf8.range_from Utf8.split_from].
    destruct (Utf8.DecodeRuneInString (String c rest)) as [r w] eqn:Hd.
    cbn [fst snd] in Hw. cbn [fold_left letter_runs].
    set (rest0 := String c rest) in *.
    set (bs := substring 0 w rest0).
    assert (Hdoc : pre +:+ rest0 = (pre +:+ bs) +:+ skip w rest0).
    { rewrite append_assoc. unfold bs. rewrite prefix_skip. reflexivity. }
    assert (Hbs : String.length bs = w).
    { unfold bs. apply length_substring. unfold rest0 in *. simpl String.length in *. lia. }
    assert (Hpre : len (pre +:+ bs) = len pre + Z.of_nat w).
    { unfold len. rewrite length_append, Hbs. lia. }
    assert (Hskip : (String.length (skip w rest0) <= fuel)%nat).
    { rewrite length_skip. unfold rest0 in *. simpl String.length in *. lia. }
    unfold tokenize_step at 2.
    destruct (Unicode.IsLetter Letter r).
    + rewrite <- Hpre. rewrite Hdoc.
      apply (IH (pre +:+ bs) (skip w rest0)); [exact Hskip|].
      rewrite <- Hdoc, Hpre. destruct Hrun as [[-> ->]|[Hs ->]].
      * right. simpl. split; [unfold len; lia|].
        symmetry. apply slice_at.
      * right. destruct (Z.eqb_spec start (-1)) as [|_]; [lia|].
        split; [lia|]. symmetry. apply slice_extend. lia.
    + rewrite (close_run_eq _ _ _ _ tokens Hrun)
        by (unfold len; rewrite length_append; lia).
      rewrite filter_app, map_app, app_assoc.
      rewrite <- Hpre. rewrite Hdoc.
      apply (IH (pre +:+ bs) (skip w rest0)); [exact Hskip|].
      left. split; reflexivity.
Qed.

(** What [tokenize] returns: the maximal runs of letters of the document
    that are at least two bytes long, each through [doNormalize], in the
    order of the document. *)
Lemma tokenize_runs (doc : string) :
  tokenize Letter t doc
  = map (doNormalize t)
        (filter (fun run => 1 < len run) (maximal_letter_runs Letter doc)).
Proof.
  unfold tokenize, maximal_letter_runs, Utf8.range, Utf8.split.
  pose proof (tokenize_loop (String.length doc) EmptyString doc (-1) [] EmptyString) as H.
  simpl in H. apply H; [lia|]. left. split; reflexivity.
Qed.

(** Every step of the decoding that is not [RuneError] has read a
    well-formed sequence. *)
Lemma split_from_Encoded (fuel : nat) :
  forall s : string,
    Forall (fun p : Z * string => p.1 <> Utf8.RuneError -> Encoded (Utf8.bytes p.2) p.1)
           (Utf8.split_from fuel s).
Proof.
  induction fuel as [|fuel IH]; intros s; [constructor|].
  destruct s as [|c s]; [constructor|].
  cbn [Utf8.split_from].
  destruct (Utf8.DecodeRuneInString (String c s)) as [r w] eqn:Hd.
  constructor; [|apply IH].
  cbn [fst snd]. intros Hr. rewrite bytes_prefix.
  apply DecodeRune_Encoded; [apply bytes_bounded|discriminate|exact Hd|tauto].
Qed.

(** The runs of letters are well-formed UTF-8, as [RuneError] is no letter. *)
Lemma letter_runs_valid (ps : list (Z * string)) :
  Letter Utf8.RuneError = false ->
  Forall (fun p : Z * string => p.1 <> Utf8.RuneError -> Encoded (Utf8.bytes p.2) p.1) ps ->
  forall cur : string, Utf8.ValidString cur = true ->
    Forall (fun run => Utf8.ValidString run = true) (letter_runs Letter cur ps).
Proof.
  intros HL. induction 1 as [|[r bs] ps Hp _ IH]; intros cur Hcur.
  - destruct cur; repeat constructor. exact Hcur.
  - cbn [letter_runs]. destruct (Unicode.IsLetter Letter r) eqn:Hr.
    + apply IH. apply ValidString_append; [exact Hcur|].
      rewrite <- (append_empty_r bs). apply (ValidString_cons _ _ r); [|reflexivity].
      apply Hp. cbn [fst]. intros ->.
      unfold Unicode.IsLetter in Hr. simpl in Hr. congruence.
    + apply Forall_app. split; [|apply IH; reflexivity].
      destruct cur; repeat constructor. exact Hcur.
Qed.

(** Without a normalization function, the tokens of a document are
    well-formed UTF-8. *)
Lemma tokenize_valid (doc : string) :
  normalizeFunc t = None -> Letter Utf8.RuneError = false ->
  Forall (fun token => Utf8.ValidString token = true) (tokenize Letter t doc).
Proof.
  intros Hn HL. rewrite tokenize_runs.
  rewrite (map_ext (doNormalize t) (fun token => token)), List.map_id.
  - apply Forall_forall. intros run Hrun. apply list_elem_of_filter in Hrun as [_ Hrun].
    revert run Hrun. apply Forall_forall.
    apply letter_runs_valid; [exact HL|apply split_from_Encoded|reflexivity].
  - intros token. unfold doNormalize. rewrite Hn. reflexivity.
Qed.

(** The tokens [Tokenize] stores: with a normalization function [f], every
    run goes through [f] in [tokenize] and once more in [Tokenize]. *)
Lemma Tokenize_tokens (documents : list string) :
  (Tokenize Letter t documents).2
  = map (fun doc =>
           map (fun run => match normalizeFunc t with
                           | Some f => f (f run)
                           | None => run
                           end)
               (filter (fun run => 1 < len run) (maximal_letter_runs Letter doc)))
        documents.
Proof.
  unfold Tokenize. cbn [snd]. apply map_ext. intros doc.
  rewrite tokenize_runs. unfold doNormalize.
  destruct (normalizeFunc t) as [f|]; [rewrite map_map|]; reflexivity.
Qed.

End TokenizeRuns.

(** ** [vocabulary] *)

Section VocabularyProperties.

Import Token.

Lemma vocabulary_step_inv (st : gset string * list string) (token : string) :
  vocabulary_inv st ->
  vocabulary_inv (vocabulary_step st token) /\
  forall x, x ∈ (vocabulary_step st token).2 <-> x ∈ st.2 \/ x = token.
Proof.
  destruct st as [m ts]. intros [Hnd Hel]. unfold vocabulary_step, vocabulary_inv.
  cbn [fst snd] in *.
  destruct (decide (token ∈ m)) as [Hin|Hout]; cbn [fst snd].
  - split; [split; assumption|]. intros x. split; [tauto|].
    intros [H| ->]; [assumption|]. apply Hel. exact Hin.
  - split; [split|].
    + apply NoDup_app. split; [assumption|]. split; [|apply NoDup_singleton].
      intros x Hx Hx'. apply list_elem_of_singleton in Hx'. subst x.
      apply Hout, Hel, Hx.
    + intros x. rewrite elem_of_union, elem_of_singleton, elem_of_app,
        list_elem_of_singleton, Hel. tauto.
    + intros x. rewrite elem_of_app, list_elem_of_singleton. tauto.
Qed.

Lemma vocabulary_doc_inv (doc : list string) (st : gset string * list string) :
  vocabulary_inv st ->
  vocabulary_inv (fold_left vocabulary_step doc st) /\
  forall x, x ∈ (fold_left vocabulary_step doc st).2 <-> x ∈ st.2 \/ x ∈ doc.
Proof.
  revert st. induction doc as [|token doc IH]; intros st Hinv; simpl.
  - split; [assumption|]. intros x. rewrite elem_of_nil. tauto.
  - destruct (vocabulary_step_inv st token Hinv) as [Hinv' Hel'].
    destruct (IH _ Hinv') as [Hinv'' Hel''].
    split; [assumption|]. intros x. rewrite Hel'', Hel', elem_of_cons. tauto.
Qed.

Lemma vocabulary_docs_inv (tokens : list (list string)) (st : gset string * list string) :
  vocabulary_inv st ->
  vocabulary_inv (fold_left (fun st doc => fold_left vocabulary_step doc st) tokens st) /\
  forall x, x ∈ (fold_left (fun st doc => fold_left vocabulary_step doc st) tokens st).2
            <-> x ∈ st.2 \/ x ∈ terms_of tokens.
Proof.
  revert st. induction tokens as [|doc tokens IH]; intros st Hinv; simpl.
  - split; [assumption|]. intros x. unfold terms_of. simpl. rewrite elem_of_nil. tauto.
  - destruct (vocabulary_doc_inv doc st Hinv) as [Hinv' Hel'].
    destruct (IH _ Hinv') as [Hinv'' Hel''].
    split; [assumption|]. intros x. unfold terms_of in *. simpl.
    rewrite Hel'', Hel', elem_of_app. tauto.
Qed.

Lemma Sort_Permutation (x : list string) : Slices.Sort x ≡ₚ x.
Proof. apply merge_sort_Permutation. Qed.

Lemma Sort_sorted (x : list string) : StronglySorted String.le (Slices.Sort x).
Proof. apply StronglySorted_merge_sort; apply _. Qed.

Lemma le_ne_lt (s1 s2 : string) : String.le s1 s2 -> s1 <> s2 -> string_lt s1 s2.
Proof.
  unfold String.le, String.leb, string_lt. intros Hle Hne.
  destruct (String.compare s1 s2) eqn:Hc.
  - exfalso. apply Hne. apply String.compare_eq_iff. exact Hc.
  - reflexivity.
  - destruct Hle.
Qed.

Lemma StronglySorted_strict (l : list string) :
  StronglySorted String.le l -> NoDup l -> StronglySorted string_lt l.
Proof.
  induction 1 as [|s l Hs IH Hall]; intros Hnd; constructor.
  - apply IH. apply NoDup_cons in Hnd. tauto.
  - apply NoDup_cons in Hnd as [Hs' _].
    rewrite Forall_forall in Hall |- *. intros s' Hin.
    apply le_ne_lt; [apply Hall; exact Hin|]. intros ->. contradiction.
Qed.

(** What [vocabulary] returns: the terms of the corpus, each once, in
    strictly increasing order. *)
Lemma vocabulary_spec (tokens : list (list string)) :
  NoDup (vocabulary tokens) /\
  StronglySorted String.le (vocabulary tokens) /\
  forall x, x ∈ vocabulary tokens <-> x ∈ terms_of tokens.
Proof.
  unfold vocabulary.
  assert (Hinit : vocabulary_inv (∅, [])).
  { split; [constructor|]. intros x. simpl. rewrite elem_of_empty, elem_of_nil. tauto. }
  destruct (vocabulary_docs_inv tokens _ Hinit) as [[Hnd _] Hel].
  destruct (fold_left _ tokens _) as [m terms]. simpl in *.
  split; [|split].
  - rewrite Sort_Permutation. exact Hnd.
  - apply Sort_sorted.
  - intros x. rewrite Sort_Permutation, Hel, elem_of_nil. tauto.
Qed.

(** The vocabulary depends on the set of the terms only. *)
Lemma vocabulary_unique (tokens tokens' : list (list string)) :
  (forall x, x ∈ terms_of tokens <-> x ∈ terms_of tokens') ->
  vocabulary tokens = vocabulary tokens'.
Proof.
  intros Hsame.
  destruct (vocabulary_spec tokens) as (Hnd & Hs & Hel).
  destruct (vocabulary_spec tokens') as (Hnd' & Hs' & Hel').
  apply (StronglySorted_unique String.le); [assumption|assumption|].
  apply NoDup_Permutation; [assumption|assumption|].
  intros x. rewrite Hel, Hel'. apply Hsame.
Qed.

End VocabularyProperties.

(** ** The vocabulary of [Tokenize] *)

Section TokenizeVocabulary.

Import Token.

Variable Letter : Z -> bool.

Lemma elem_of_terms_of (tokens : list (list string)) (x : string) :
  x ∈ terms_of tokens <-> exists doc, doc ∈ tokens /\ x ∈ doc.
Proof.
  unfold terms_of. rewrite list_elem_of_In, in_concat.
  split; intros (doc & H1 & H2); exists doc.
  - split; apply list_elem_of_In; assumption.
  - split; apply list_elem_of_In; assumption.
Qed.

Lemma terms_of_Permutation {A} (g : A -> list string) (l l' : list A) (x : string) :
  l ≡ₚ l' -> x ∈ terms_of (map g l) <-> x ∈ terms_of (map g l').
Proof.
  intros Hp. rewrite !elem_of_terms_of.
  split; intros (doc & H1 & H2); exists doc; split; try assumption.
  - rewrite list_elem_of_In, in_map_iff in H1 |- *.
    destruct H1 as (d & ? & Hd). exists d. split; [assumption|].
    apply list_elem_of_In. rewrite <- Hp. apply list_elem_of_In. exact Hd.
  - rewrite list_elem_of_In, in_map_iff in H1 |- *.
    destruct H1 as (d & ? & Hd). exists d. split; [assumption|].
    apply list_elem_of_In. rewrite Hp. apply list_elem_of_In. exact Hd.
Qed.

Lemma StronglySorted_weaken {A} (R R' : A -> A -> Prop) :
  (forall x y, R x y -> R' x y) ->
  forall l, StronglySorted R l -> StronglySorted R' l.
Proof.
  intros HR l. induction 1 as [|x l _ IH Hall]; constructor; [exact IH|].
  eapply Forall_impl; [exact Hall|]. apply HR.
Qed.

Lemma StronglySorted_weaken_on {A} (P : A -> Prop) (R R' : A -> A -> Prop) :
  (forall x y, P x -> P y -> R x y -> R' x y) ->
  forall l, Forall P l -> StronglySorted R l -> StronglySorted R' l.
Proof.
  intros HR l HP. induction 1 as [|x l _ IH Hall]; constructor.
  - apply IH. apply Forall_cons in HP. tauto.
  - apply Forall_cons in HP as [Hx HP].
    rewrite Forall_forall in Hall, HP |- *. intros y Hy.
    apply HR; [exact Hx|apply HP; exact Hy|apply Hall; exact Hy].
Qed.

(** Without a normalization function the entries of the vocabulary are
    well-formed UTF-8. *)
Lemma Tokenize_valid (t : Tokenizer) (documents : list string) :
  normalizeFunc t = None -> Letter Utf8.RuneError = false ->
  Forall (fun s => Utf8.ValidString s = true) (Tokenize Letter t documents).1.
Proof.
  intros Hn HL. unfold Tokenize. cbn [fst]. rewrite Hn.
  apply Forall_forall. intros x Hx.
  apply vocabulary_spec, elem_of_terms_of in Hx as (tkns & Htk & Hx).
  apply list_elem_of_In, in_map_iff in Htk as (doc & <- & _).
  pose proof (tokenize_valid Letter t doc Hn HL) as Hv.
  rewrite Forall_forall in Hv. apply Hv. exact Hx.
Qed.

(** C7.  For every tokenizer and corpus, the vocabulary that [Tokenize]
    returns has no duplicates and is in strictly ascending order: the order
    of Go on strings, byte by byte, which on well-formed UTF-8 is the order
    of the code points; without a normalization function the entries are
    well-formed, so that the vocabulary is in ascending order of code
    points.  It holds exactly the tokens of the documents, and is the same
    for every corpus with the same set of tokens, in particular for the
    documents in any other order. *)
Theorem Tokenize_vocabulary (t : Tokenizer) (documents : list string) :
  let vocab := (Tokenize Letter t documents).1 in
  let tokens := (Tokenize Letter t documents).2 in
  NoDup vocab /\
  StronglySorted string_lt vocab /\
  StronglySorted codepoint_lt vocab /\
  (normalizeFunc t = None -> Letter Utf8.RuneError = false ->
     StronglySorted (fun s1 s2 => lex_compare (Utf8.runes s1) (Utf8.runes s2) = Lt) vocab) /\
  (forall x, x ∈ vocab <-> x ∈ terms_of tokens) /\
  (forall documents',
     (forall x, x ∈ terms_of (Tokenize Letter t documents').2 <-> x ∈ terms_of tokens) ->
     (Tokenize Letter t documents').1 = vocab) /\
  (forall documents', documents' ≡ₚ documents ->
     (Tokenize Letter t documents').1 = vocab).
Proof.
  pose proof (Tokenize_valid t documents) as Hvalid.
  unfold Tokenize in *. cbn [fst snd] in *.
  set (g := fun doc : string => match normalizeFunc t with Some _ => _ | None => _ end) in *.
  destruct (vocabulary_spec (map g documents)) as (Hnd & Hs & Hel).
  pose proof (StronglySorted_strict _ Hs Hnd) as Hlt.
  split; [exact Hnd|]. split; [exact Hlt|].
  split; [exact (StronglySorted_weaken _ _ string_lt_codepoint_lt _ Hlt)|].
  split.
  { intros Hn HL.
    apply (StronglySorted_weaken_on (fun s => Utf8.ValidString s = true) string_lt);
      [|exact (Hvalid Hn HL)|exact Hlt].
    intros s1 s2 H1 H2 H12. apply (string_lt_codepoint_lt s1 s2 H12 H1 H2). }
  split; [exact Hel|]. split.
  - intros documents' Hsame. apply vocabulary_unique. exact Hsame.
  - intros documents' Hp. apply vocabulary_unique. intros x.
    apply terms_of_Permutation. exact Hp.
Qed.

End TokenizeVocabulary.

(** ** Tokens of one letter *)

Section SingleLetter.

Variable Letter : Z -> bool.

(** C2, at a document of one letter.  U+00E9 is a letter and is alone in
    the document, a run of one code point; [tokenize] measures the run in
    bytes, finds two, and emits it as a token.  Between two ASCII letters,
    which are dropped, it is emitted as well. *)
Theorem tokenize_one_letter :
  Utf8.range e_acute = [(0, 0xE9)] /\
  Unicode.IsLetter Letter 0xE9 = true /\
  Utf8.RuneCountInString e_acute = 1%nat /\
  Token.tokenize Letter (Token.NewTokenizer []) e_acute = [e_acute] /\
  Token.tokenize Letter (Token.NewTokenizer []) ("a " +:+ e_acute +:+ " b") = [e_acute].
Proof. repeat split; vm_compute; reflexivity. Qed.

End SingleLetter.

(** ** [Tf] *)

Section TfProperties.

Import Tfidf.

Lemma term_counts_fold (doc : list string) (m : gmap string nat) (term : string) :
  fold_left (fun termsMap term =>
               <[term := S (default 0%nat (termsMap !! term))]> termsMap) doc m !! term
  = match occurrences term doc with
    | O => m !! term
    | S n => Some (S n + default 0 (m !! term))%nat
    end.
Proof.
  revert m. induction doc as [|tok doc IH]; intros m; [reflexivity|].
  simpl fold_left. rewrite IH. unfold occurrences.
  rewrite filter_cons. destruct (decide (tok = term)) as [->|Hne].
  - rewrite lookup_insert_eq. simpl.
    destruct (length (filter _ doc)); simpl; f_equal; lia.
  - rewrite lookup_insert_ne by done. reflexivity.
Qed.

Lemma term_counts_lookup (doc : list string) (term : string) :
  term_counts doc !! term
  = match occurrences term doc with O => None | S n => Some (S n) end.
Proof.
  unfold term_counts. rewrite term_counts_fold, lookup_empty.
  destruct (occurrences term doc); simpl; f_equal; lia.
Qed.

Lemma occurrences_absent (term : string) (doc : list string) :
  term ∉ doc -> occurrences term doc = 0%nat.
Proof.
  intros H. unfold occurrences. induction doc as [|tok doc IH]; [reflexivity|].
  rewrite filter_cons. destruct (decide (tok = term)) as [->|Hne].
  - exfalso. apply H. left.
  - apply IH. intros Hin. apply H. right. exact Hin.
Qed.

(** [Tf] as a table of occurrence counts. *)
Lemma Tf_table (vocabulary : list string) (tokens : list (list string)) :
  Tf vocabulary tokens
  = map (fun doc => map (fun term => INR (occurrences term doc)) vocabulary) tokens.
Proof.
  unfold Tf. apply map_ext. intros doc. apply map_ext. intros term.
  rewrite term_counts_lookup. destruct (occurrences term doc); reflexivity.
Qed.

(** C3.  For every vocabulary and every list of token sequences, [Tf]
    returns one row per token sequence; every row has the length of the
    vocabulary; the entry in row [i], column [j] is the number of
    occurrences of [vocabulary[j]] in [tokens[i]], and it is exactly 0 for a
    term absent from the document.  [Tf] is a total function: it has no
    error result. *)
Theorem Tf_counts (vocabulary : list string) (tokens : list (list string)) :
  length (Tf vocabulary tokens) = length tokens /\
  Forall (fun row => length row = length vocabulary) (Tf vocabulary tokens) /\
  forall (i j : nat) (doc : list string) (term : string),
    tokens !! i = Some doc -> vocabulary !! j = Some term ->
    exists row, Tf vocabulary tokens !! i = Some row /\
      row !! j = Some (INR (occurrences term doc)) /\
      (term ∉ doc -> row !! j = Some 0%R).
Proof.
  rewrite Tf_table. split; [|split].
  - apply length_map.
  - apply Forall_map, Forall_forall. intros doc _. apply length_map.
  - intros i j doc term Hi Hj.
    exists (map (fun term => INR (occurrences term doc)) vocabulary).
    rewrite !lookup_map, Hi, Hj. simpl. repeat split.
    intros Habs. rewrite (occurrences_absent _ _ Habs). reflexivity.
Qed.

End TfProperties.

(** ** float64 operations *)

Lemma Div_Done (x y : float64) : y <> 0%R -> Math.Div x y = Done (x / y)%R.
Proof. intros H. unfold Math.Div. destruct (decide (y = 0%R)); [contradiction|reflexivity]. Qed.

Lemma Log_Done (x : float64) : (0 < x)%R -> Math.Log x = Done (ln x).
Proof. intros H. unfold Math.Log. destruct (decide (0 < x)%R); [reflexivity|contradiction]. Qed.

Lemma Sqrt_Done (x : float64) : (0 <= x)%R -> Math.Sqrt x = Done (sqrt x).
Proof. intros H. unfold Math.Sqrt. destruct (decide (0 <= x)%R); [reflexivity|contradiction]. Qed.

(** ** [Idf] *)

Section IdfProperties.

Import Tfidf.

Lemma doc_set_fold (doc : list string) (m : gset string) (term : string) :
  term ∈ fold_left (fun docMap token => {[token]} ∪ docMap) doc m
  <-> term ∈ doc \/ term ∈ m.
Proof.
  revert m. induction doc as [|tok doc IH]; intros m; simpl.
  - rewrite elem_of_nil. tauto.
  - rewrite IH, elem_of_cons, elem_of_union, elem_of_singleton. tauto.
Qed.

Lemma elem_of_doc_set (doc : list string) (term : string) :
  term ∈ doc_set doc <-> term ∈ doc.
Proof.
  unfold doc_set. rewrite doc_set_fold. rewrite elem_of_empty. tauto.
Qed.

Lemma doc_count_fold (tokens : list (list string)) (term : string) (c : nat) :
  fold_left (fun docCount docMap =>
               if decide (term ∈ docMap) then S docCount else docCount)
            (map doc_set tokens) c
  = (c + df term tokens)%nat.
Proof.
  revert c. induction tokens as [|doc tokens IH]; intros c; simpl.
  - unfold df. simpl. lia.
  - rewrite IH. unfold df. rewrite filter_cons.
    destruct (decide (term ∈ doc_set doc)) as [Hin|Hout];
      destruct (decide (term ∈ doc)) as [Hin'|Hout']; simpl; try lia.
    + exfalso. apply Hout'. apply elem_of_doc_set. exact Hin.
    + exfalso. apply Hout. apply elem_of_doc_set. exact Hin'.
Qed.

(** The counter of [Idf] is the document frequency. *)
Lemma doc_count_df (tokens : list (list string)) (term : string) :
  doc_count (map doc_set tokens) term = df term tokens.
Proof. unfold doc_count. rewrite doc_count_fold. reflexivity. Qed.

Lemma df_le (term : string) (tokens : list (list string)) :
  (df term tokens <= length tokens)%nat.
Proof. unfold df. apply length_filter. Qed.

Lemma df_all (term : string) (tokens : list (list string)) :
  Forall (fun doc => term ∈ doc) tokens -> df term tokens = length tokens.
Proof.
  unfold df. induction 1 as [|doc tokens Hd _ IH]; [reflexivity|].
  rewrite filter_cons. destruct (decide (term ∈ doc)); [|contradiction].
  simpl. rewrite IH. reflexivity.
Qed.

Lemma INR_pos (n : nat) : (0 < n)%nat -> (0 < INR n)%R.
Proof. intros H. apply lt_0_INR. exact H. Qed.

Lemma ratio_ge_1 (n d : nat) : (0 < d <= n)%nat -> (1 <= INR n / INR d)%R.
Proof.
  intros [Hd Hle].
  assert (0 < INR d)%R by (apply INR_pos; exact Hd).
  assert (INR d <= INR n)%R by (apply le_INR; exact Hle).
  apply Rmult_le_reg_r with (INR d); [assumption|].
  unfold Rdiv. rewrite Rmult_assoc, Rinv_l by lra. lra.
Qed.

Lemma ln_ge_0 (x : R) : (1 <= x)%R -> (0 <= ln x)%R.
Proof.
  intros H. destruct (Req_dec x 1) as [->|Hne].
  - rewrite ln_1. lra.
  - rewrite <- ln_1. left. apply ln_increasing; lra.
Qed.

(** Every division and logarithm of [Idf] is defined, and the vector it
    returns is the table of the documented weights. *)
Lemma Idf_table (vocabulary : list string) (tokens : list (list string)) (smoothing : bool) :
  Idf vocabulary tokens smoothing
  = Done (map (fun term => idf_weight (length tokens) (df term tokens) smoothing)
              vocabulary).
Proof.
  unfold Idf, idf_weight.
  destruct (Nat.eqb_spec (length tokens) 0) as [H0|H0]; [reflexivity|].
  apply mapM_Done, Forall_forall. intros term _.
  rewrite doc_count_df.
  pose proof (df_le term tokens) as Hle.
  destruct smoothing.
  - rewrite Div_Done by (apply not_0_INR; lia). rewrite bind_Done.
    rewrite Log_Done; [reflexivity|].
    pose proof (ratio_ge_1 (length tokens + 1) (df term tokens + 1) ltac:(lia)). lra.
  - destruct (Nat.eqb_spec (df term tokens) 0) as [Hd|Hd].
    + rewrite Log_Done; [reflexivity|]. apply INR_pos. lia.
    + rewrite Div_Done by (apply not_0_INR; lia). rewrite bind_Done.
      rewrite Log_Done; [reflexivity|].
      pose proof (ratio_ge_1 (length tokens) (df term tokens) ltac:(lia)). lra.
Qed.

Lemma idf_weight_pos (N d : nat) (smoothing : bool) :
  (d <= N)%nat -> (0 < idf_weight N d smoothing)%R.
Proof.
  intros Hle. unfold idf_weight.
  destruct (Nat.eqb_spec N 0) as [H0|H0]; [lra|].
  destruct smoothing.
  - pose proof (ln_ge_0 _ (ratio_ge_1 (N + 1) (d + 1) ltac:(lia))). lra.
  - destruct (Nat.eqb_spec d 0) as [Hd|Hd].
    + assert (1 <= INR N)%R by (change 1%R with (INR 1); apply le_INR; lia).
      pose proof (ln_ge_0 _ H). lra.
    + pose proof (ln_ge_0 _ (ratio_ge_1 N d ltac:(lia))). lra.
Qed.

(** C4.  For every vocabulary, list of token sequences and smoothing flag,
    [Idf] returns a vector of the length of the vocabulary whose [j]-th
    entry is the weight of [vocabulary[j]]: 1 when there is no document;
    [ln((N+1)/(df+1)) + 1] with smoothing (which is 1 as well when there is
    no document); [ln N + 1] without smoothing when [df = 0]; [ln(N/df) + 1]
    otherwise, where [N] is the number of documents and [df] counts the
    documents that contain the term at least once. *)
Theorem Idf_weights (vocabulary : list string) (tokens : list (list string))
    (smoothing : bool) :
  exists idfVec, Idf vocabulary tokens smoothing = Done idfVec /\
    length idfVec = length vocabulary /\
    forall (j : nat) (term : string), vocabulary !! j = Some term ->
      let N := length tokens in
      let d := df term tokens in
      idfVec !! j = Some (idf_weight N d smoothing) /\
      (N = 0%nat -> idfVec !! j = Some 1%R) /\
      (smoothing = true ->
         idfVec !! j = Some (ln (INR (N + 1) / INR (d + 1)) + 1)%R) /\
      (N <> 0%nat -> smoothing = false -> d = 0%nat ->
         idfVec !! j = Some (ln (INR N) + 1)%R) /\
      (N <> 0%nat -> smoothing = false -> d <> 0%nat ->
         idfVec !! j = Some (ln (INR N / INR d) + 1)%R).
Proof.
  eexists. split; [apply Idf_table|]. split; [apply length_map|].
  intros j term Hj N d.
  assert (Hw : map (fun term => idf_weight (length tokens) (df term tokens) smoothing)
                   vocabulary !! j = Some (idf_weight N d smoothing)).
  { rewrite lookup_map, Hj. reflexivity. }
  split; [exact Hw|]. rewrite Hw. unfold idf_weight.
  repeat split.
  - intros ->. reflexivity.
  - intros ->. destruct (Nat.eqb_spec N 0) as [HN|HN]; [|reflexivity].
    assert (Hd : d = 0%nat) by (pose proof (df_le term tokens); lia).
    rewrite HN, Hd. simpl. f_equal.
    replace (1 / 1)%R with 1%R by lra. rewrite ln_1. lra.
  - intros HN -> ->. destruct (Nat.eqb_spec N 0); [contradiction|reflexivity].
  - intros HN -> Hd. destruct (Nat.eqb_spec N 0); [contradiction|].
    destruct (Nat.eqb_spec d 0); [contradiction|reflexivity].
Qed.

(** C9.  For every vocabulary, list of token sequences and smoothing flag,
    every entry of the vector returned by [Idf] is strictly positive; and
    without smoothing a term that occurs in every one of [N >= 1] documents
    has weight exactly [ln 1 + 1 = 1]. *)
Theorem Idf_positive (vocabulary : list string) (tokens : list (list string))
    (smoothing : bool) :
  exists idfVec, Idf vocabulary tokens smoothing = Done idfVec /\
    Forall (fun w => (0 < w)%R) idfVec /\
    forall (j : nat) (term : string),
      vocabulary !! j = Some term -> smoothing = false ->
      (1 <= length tokens)%nat -> Forall (fun doc => term ∈ doc) tokens ->
      idfVec !! j = Some (ln 1 + 1)%R /\ idfVec !! j = Some 1%R.
Proof.
  eexists. split; [apply Idf_table|]. split.
  - apply Forall_map, Forall_forall. intros term _.
    apply idf_weight_pos, df_le.
  - intros j term Hj -> HN Hall.
    rewrite lookup_map, Hj. simpl.
    rewrite (df_all _ _ Hall). unfold idf_weight.
    destruct (Nat.eqb_spec (length tokens) 0) as [H0|H0]; [lia|].
    assert (Hr : (INR (length tokens) / INR (length tokens))%R = 1%R).
    { unfold Rdiv. apply Rinv_r. apply not_0_INR. lia. }
    rewrite Hr, ln_1. split; [reflexivity|]. f_equal. lra.
Qed.

End IdfProperties.

(** ** Row normalization *)

Section NormalizeProperties.

Import Tfidf.

Lemma fold_left_sum {A} (g : A -> R) (l : list A) (a : R) :
  fold_left (fun s v => s + g v)%R l a = (a + fold_right (fun v s => g v + s)%R 0%R l)%R.
Proof.
  revert a. induction l as [|x l IH]; intros a; simpl.
  - lra.
  - rewrite IH. lra.
Qed.

Lemma norm1_nonneg (vec : list R) : (0 <= norm1 vec)%R.
Proof.
  induction vec as [|v vec IH]; simpl; [lra|].
  pose proof (Rabs_pos v). lra.
Qed.

Lemma sumsq_nonneg (vec : list R) : (0 <= sumsq vec)%R.
Proof.
  induction vec as [|v vec IH]; simpl; [lra|].
  pose proof (Rle_0_sqr v) as Hs. unfold Rsqr in Hs. lra.
Qed.

Lemma norm1_zero (vec : list R) : norm1 vec = 0%R <-> zero_row vec.
Proof.
  unfold zero_row. induction vec as [|v vec IH]; simpl.
  - split; [constructor|reflexivity].
  - pose proof (Rabs_pos v) as Hv. pose proof (norm1_nonneg vec) as Hn. split.
    + intros H. constructor.
      * destruct (Req_dec v 0) as [|Hne]; [assumption|].
        pose proof (Rabs_pos_lt v Hne). lra.
      * apply IH. lra.
    + intros H. apply Forall_cons in H as [-> H]. apply IH in H.
      rewrite Rabs_R0, H. lra.
Qed.

Lemma sumsq_zero (vec : list R) : sumsq vec = 0%R <-> zero_row vec.
Proof.
  unfold zero_row. induction vec as [|v vec IH]; simpl.
  - split; [constructor|reflexivity].
  - pose proof (sumsq_nonneg vec) as Hn. split.
    + intros H. assert (Hv : (v * v = 0)%R) by nra. constructor.
      * apply Rmult_integral in Hv. tauto.
      * apply IH. lra.
    + intros H. apply Forall_cons in H as [-> H]. apply IH in H. lra.
Qed.

Lemma norm2_zero (vec : list R) : norm2 vec = 0%R <-> zero_row vec.
Proof.
  unfold norm2. rewrite <- sumsq_zero. split.
  - intros H. apply sqrt_eq_0; [apply sumsq_nonneg|exact H].
  - intros ->. apply sqrt_0.
Qed.

Lemma scale_Done (norm : R) (vec : list R) :
  norm <> 0%R -> scale norm vec = Done (map (fun val => val / norm)%R vec).
Proof.
  intros H. unfold scale. apply mapM_Done, Forall_forall. intros val _.
  apply Div_Done. exact H.
Qed.

(** What [l1Normalize] and [l2Normalize] return. *)
Lemma l1Normalize_eq (vec : list R) :
  l1Normalize vec
  = Done (if decide (norm1 vec = 0%R) then vec
          else map (fun val => val / norm1 vec)%R vec).
Proof.
  unfold l1Normalize, Math.Abs.
  rewrite (fold_left_sum Rabs vec 0%R), Rplus_0_l. fold (norm1 vec).
  destruct (decide (norm1 vec = 0%R)); [reflexivity|].
  apply scale_Done. assumption.
Qed.

Lemma l2Normalize_eq (vec : list R) :
  l2Normalize vec
  = Done (if decide (norm2 vec = 0%R) then vec
          else map (fun val => val / norm2 vec)%R vec).
Proof.
  unfold l2Normalize.
  rewrite (fold_left_sum (fun v => v * v)%R vec 0%R), Rplus_0_l. fold (sumsq vec).
  rewrite Sqrt_Done by apply sumsq_nonneg. rewrite bind_Done. fold (norm2 vec).
  destruct (decide (norm2 vec = 0%R)); [reflexivity|].
  apply scale_Done. assumption.
Qed.

(** C8.  For every row, [l1Normalize] and [l2Normalize] return a row and
    never compute a quotient by zero.  A row whose norm (the sum of the
    absolute values for L1, the Euclidean norm for L2) is exactly 0 is
    returned unchanged, and its entries are all zero: an all-zero row stays
    all-zero.  Any other row is divided, entry by entry, by its norm, which
    is not zero. *)
Theorem normalize_zero_row (vec : list R) :
  (exists v, l1Normalize vec = Done v) /\
  (exists v, l2Normalize vec = Done v) /\
  (norm1 vec = 0%R -> l1Normalize vec = Done vec /\ zero_row vec) /\
  (norm2 vec = 0%R -> l2Normalize vec = Done vec /\ zero_row vec) /\
  (zero_row vec -> l1Normalize vec = Done vec /\ l2Normalize vec = Done vec) /\
  (norm1 vec <> 0%R ->
     l1Normalize vec = Done (map (fun val => val / norm1 vec)%R vec)) /\
  (norm2 vec <> 0%R ->
     l2Normalize vec = Done (map (fun val => val / norm2 vec)%R vec)).
Proof.
  rewrite l1Normalize_eq, l2Normalize_eq.
  split; [eauto|]. split; [eauto|].
  split; [|split; [|split; [|split]]].
  - intros H. rewrite decide_True by exact H. split; [reflexivity|].
    apply norm1_zero. exact H.
  - intros H. rewrite decide_True by exact H. split; [reflexivity|].
    apply norm2_zero. exact H.
  - intros H. rewrite !decide_True; [split; reflexivity| |].
    + apply norm2_zero. exact H.
    + apply norm1_zero. exact H.
  - intros H. rewrite decide_False by exact H. reflexivity.
  - intros H. rewrite decide_False by exact H. reflexivity.
Qed.

End NormalizeProperties.

(** ** [TfIdf] *)

Section TfIdfProperties.

Import Tfidf.

Variable t : TfIdfVectorizer.

(** The products of one row: defined as soon as the row and the IDF vector
    have [cols] entries, a panic as soon as the row is shorter. *)
Lemma weighted_Done (row idfVec : list R) (cols : nat) :
  (cols <= length row)%nat -> (cols <= length idfVec)%nat ->
  exists w, mapM (fun j => tf ← index row j; idf ← index idfVec j; Done (tf * idf)%R)
                 (seq 0 cols) = Done w /\ length w = cols.
Proof.
  intros Hr Hi.
  exists (map (fun j => nth j row 0 * nth j idfVec 0)%R (seq 0 cols)).
  split; [|rewrite length_map, length_seq; reflexivity].
  apply mapM_Done, Forall_forall. intros j Hj.
  apply elem_of_seq in Hj.
  destruct (lookup_lt_is_Some_2 row j) as [x Hx]; [lia|].
  destruct (lookup_lt_is_Some_2 idfVec j) as [y Hy]; [lia|].
  rewrite (index_Done _ _ _ Hx), bind_Done, (index_Done _ _ _ Hy), bind_Done.
  rewrite (nth_lookup_Some _ _ 0%R _ Hx), (nth_lookup_Some _ _ 0%R _ Hy).
  reflexivity.
Qed.

Lemma mapM_Fault {A B} (f : A -> exec B) (l1 l2 : list A) (a : A) (e : fault) :
  Forall (fun x => exists y, f x = Done y) l1 -> f a = Fault e ->
  mapM f (l1 ++ a :: l2) = Fault e.
Proof.
  intros H Ha. induction H as [|x l1 [y Hy] _ IH]; simpl app.
  - rewrite mapM_cons, Ha. reflexivity.
  - rewrite mapM_cons, Hy, bind_Done, IH. reflexivity.
Qed.

Lemma weighted_Fault (row idfVec : list R) (cols : nat) :
  (length row < cols)%nat -> (cols <= length idfVec)%nat ->
  mapM (fun j => tf ← index row j; idf ← index idfVec j; Done (tf * idf)%R)
       (seq 0 cols) = Fault IndexOutOfRange.
Proof.
  intros Hr Hi.
  replace cols with (length row + S (cols - length row - 1))%nat by lia.
  rewrite seq_app. simpl seq.
  apply mapM_Fault.
  - apply Forall_forall. intros j Hj. apply elem_of_seq in Hj.
    destruct (lookup_lt_is_Some_2 row j) as [x Hx]; [lia|].
    destruct (lookup_lt_is_Some_2 idfVec j) as [y Hy]; [lia|].
    rewrite (index_Done _ _ _ Hx), bind_Done, (index_Done _ _ _ Hy), bind_Done.
    eauto.
  - rewrite (index_Fault row) by lia. reflexivity.
Qed.

(** [doNormalize] on a recognised level returns a row of the same length
    and no error; on any other level it returns [nil] and [InvalidConfig]. *)
Lemma doNormalize_recognised (vec : list R) :
  recognised (NormLevel t) ->
  exists v, doNormalize t vec = Done (v, None) /\ length v = length vec.
Proof.
  unfold doNormalize. intros [H|[H|H]]; rewrite H; simpl.
  - eauto.
  - rewrite l1Normalize_eq, bind_Done. eexists. split; [reflexivity|].
    destruct (decide _); [reflexivity|apply length_map].
  - rewrite l2Normalize_eq, bind_Done. eexists. split; [reflexivity|].
    destruct (decide _); [reflexivity|apply length_map].
Qed.

Lemma doNormalize_unrecognised (vec : list R) :
  ~ recognised (NormLevel t) -> doNormalize t vec = Done ([], Some InvalidConfig).
Proof.
  unfold doNormalize, recognised. intros H.
  destruct (Z.eqb_spec (NormLevel t) L1Norm); [tauto|].
  destruct (Z.eqb_spec (NormLevel t) L2Norm); [tauto|].
  destruct (Z.eqb_spec (NormLevel t) NoNorm); [tauto|].
  reflexivity.
Qed.

Lemma recognised_dec (lvl : Z) : {recognised lvl} + {~ recognised lvl}.
Proof.
  unfold recognised, NoNorm, L1Norm, L2Norm.
  destruct (Z.eq_dec lvl 0); [left; tauto|].
  destruct (Z.eq_dec lvl 1); [left; tauto|].
  destruct (Z.eq_dec lvl 2); [left; tauto|].
  right. tauto.
Qed.

(** The loop over the rows, on a recognised level, with rows that are long
    enough: a matrix with one row of [cols] entries per row. *)
Lemma TfIdf_rows_recognised (cols : nat) (idfVec : list R) (rows : list (list R)) :
  recognised (NormLevel t) -> (cols <= length idfVec)%nat ->
  Forall (fun row => (cols <= length row)%nat) rows ->
  exists mat, TfIdf_rows t cols idfVec rows = Done (mat, None) /\
    length mat = length rows /\ Forall (fun row => length row = cols) mat.
Proof.
  intros Ht Hi. induction 1 as [|row rows Hrow _ (mat & IH & Hlen & Hall)].
  - exists []. repeat split. constructor.
  - destruct (weighted_Done row idfVec cols Hrow Hi) as (w & Hw & Hwl).
    destruct (doNormalize_recognised w Ht) as (v & Hv & Hvl).
    exists (v :: mat). simpl TfIdf_rows.
    rewrite Hw, bind_Done, Hv, bind_Done, IH, bind_Done.
    repeat split; simpl; [lia|]. constructor; [lia|assumption].
Qed.

(** On a recognised level the first row that is too short stops the loop on
    an index out of range. *)
Lemma TfIdf_rows_short (cols : nat) (idfVec : list R) (rows : list (list R)) :
  recognised (NormLevel t) -> (cols <= length idfVec)%nat ->
  Exists (fun row => (length row < cols)%nat) rows ->
  TfIdf_rows t cols idfVec rows = Fault IndexOutOfRange.
Proof.
  intros Ht Hi. induction rows as [|row rows IH]; intros Hex.
  - inversion Hex.
  - simpl TfIdf_rows. destruct (le_lt_dec cols (length row)) as [Hle|Hlt].
    + destruct (weighted_Done row idfVec cols Hle Hi) as (w & Hw & Hwl).
      destruct (doNormalize_recognised w Ht) as (v & Hv & Hvl).
      rewrite Hw, bind_Done, Hv, bind_Done, IH; [reflexivity|].
      apply Exists_cons in Hex as [Hex|Hex]; [lia|assumption].
    + rewrite (weighted_Fault row idfVec cols Hlt Hi). reflexivity.
Qed.

(** On any other level the loop stops at the first row, with
    [InvalidConfig]. *)
Lemma TfIdf_rows_unrecognised (cols : nat) (idfVec row : list R) (rows : list (list R)) :
  ~ recognised (NormLevel t) -> (cols <= length idfVec)%nat -> (cols <= length row)%nat ->
  TfIdf_rows t cols idfVec (row :: rows) = Done ([], Some InvalidConfig).
Proof.
  intros Ht Hi Hrow. simpl TfIdf_rows.
  destruct (weighted_Done row idfVec cols Hrow Hi) as (w & Hw & Hwl).
  rewrite Hw, bind_Done, (doNormalize_unrecognised w Ht). reflexivity.
Qed.

(** An error out of the loop is [InvalidConfig], on an unrecognised level,
    and comes with the [nil] matrix. *)
Lemma TfIdf_rows_error (cols : nat) (idfVec : list R) (rows mat : list (list R)) (e : error) :
  TfIdf_rows t cols idfVec rows = Done (mat, Some e) ->
  e = InvalidConfig /\ mat = [] /\ ~ recognised (NormLevel t).
Proof.
  revert mat. induction rows as [|row rows IH]; intros mat H; simpl in H.
  - discriminate.
  - apply bind_Done_inv in H as (w & Hw & H).
    apply bind_Done_inv in H as ([v err] & Hv & H).
    destruct (recognised_dec (NormLevel t)) as [Ht|Ht].
    + destruct (doNormalize_recognised w Ht) as (v' & Hv' & _).
      rewrite Hv' in Hv. injection Hv as <- <-.
      apply bind_Done_inv in H as ([mat' err'] & Hrest & H).
      destruct err' as [e'|]; [|discriminate].
      injection H as <- <-. destruct (IH _ Hrest) as (-> & _ & Hn). tauto.
    + rewrite (doNormalize_unrecognised w Ht) in Hv. injection Hv as <- <-.
      injection H as <- <-. tauto.
Qed.

End TfIdfProperties.

Section TfIdfErrors.

Import Tfidf.

(** C6, as the code has it.  For every vectorizer, TF matrix and IDF vector:
    [TfIdf] fails with [EmptyInput] if and only if the TF matrix has no row;
    with [ShapeMismatch] if and only if the matrix has a first row whose
    length differs from the length of the IDF vector; with [InvalidConfig]
    if and only if the matrix has a first row of the length of the IDF
    vector and the normalization level is none of [NoNorm], [L1Norm],
    [L2Norm].  The three checks are made in this order, so an empty matrix
    is [EmptyInput] whatever the level.  Every failure comes with the [nil]
    matrix, never with the rows computed so far. *)
Theorem TfIdf_errors (t : TfIdfVectorizer) (tfVec : list (list R)) (idfVec : list R) :
  (TfIdf t tfVec idfVec = Done ([], Some EmptyInput) <-> tfVec = []) /\
  (TfIdf t tfVec idfVec = Done ([], Some ShapeMismatch) <->
     exists row0 rest, tfVec = row0 :: rest /\ length row0 <> length idfVec) /\
  (TfIdf t tfVec idfVec = Done ([], Some InvalidConfig) <->
     exists row0 rest, tfVec = row0 :: rest /\ length row0 = length idfVec /\
       ~ recognised (NormLevel t)) /\
  (forall mat e, TfIdf t tfVec idfVec = Done (mat, Some e) -> mat = []).
Proof.
  destruct tfVec as [|row0 rest].
  { simpl. repeat split; try discriminate.
    - intros (? & ? & ? & _). discriminate.
    - intros (? & ? & ? & _). discriminate.
    - intros mat e H. injection H as <- _. reflexivity. }
  unfold TfIdf.
  destruct (Nat.eqb_spec (length row0) (length idfVec)) as [Heq|Hne]; simpl negb; cbv iota.
  - repeat split.
    + intros H. apply TfIdf_rows_error in H as (? & _). discriminate.
    + discriminate.
    + intros H. apply TfIdf_rows_error in H as (? & _). discriminate.
    + intros (? & ? & Htf & Hlen). injection Htf as <- <-. contradiction.
    + intros H. apply TfIdf_rows_error in H as (_ & _ & Ht). eauto.
    + intros (? & ? & Htf & _ & Ht). injection Htf as <- <-.
      apply TfIdf_rows_unrecognised; [assumption|lia|lia].
    + intros mat e H. apply TfIdf_rows_error in H. tauto.
  - repeat split; try discriminate.
    + eauto.
    + intros (? & ? & Htf & Hlen & _). injection Htf as <- <-. contradiction.
    + intros mat e H. injection H as <- _. reflexivity.
Qed.

(** C10, as the code has it.  The shape check of [TfIdf] reads the first row
    only.  For every TF matrix whose rows all have the length of the IDF
    vector no index is out of range, whatever the level; if moreover the
    matrix is not empty and the level is recognised, [TfIdf] returns without
    error a matrix of the same shape.  A matrix whose first row has the
    length of the IDF vector is never rejected with [ShapeMismatch], ragged
    or not; and on a recognised level a later row that is shorter stops
    [TfIdf] on an index out of range. *)
Theorem TfIdf_first_row_only (t : TfIdfVectorizer) (tfVec : list (list R)) (idfVec : list R) :
  (Forall (fun row => length row = length idfVec) tfVec ->
     (exists mat err, TfIdf t tfVec idfVec = Done (mat, err)) /\
     (tfVec <> [] -> recognised (NormLevel t) ->
        exists mat, TfIdf t tfVec idfVec = Done (mat, None) /\ same_shape mat tfVec)) /\
  (forall row0 rest, tfVec = row0 :: rest -> length row0 = length idfVec ->
     (forall mat, TfIdf t tfVec idfVec <> Done (mat, Some ShapeMismatch)) /\
     (recognised (NormLevel t) ->
        Exists (fun row => (length row < length idfVec)%nat) rest ->
        TfIdf t tfVec idfVec = Fault IndexOutOfRange)).
Proof.
  split.
  - intros Hall. destruct tfVec as [|row0 rest]; [simpl; split; [eauto|congruence]|].
    pose proof (Forall_inv Hall) as H0. simpl in H0.
    unfold TfIdf. rewrite (proj2 (Nat.eqb_eq _ _) H0). simpl negb. cbv iota.
    destruct (recognised_dec (NormLevel t)) as [Ht|Ht].
    + destruct (TfIdf_rows_recognised t (length row0) idfVec (row0 :: rest) Ht)
        as (mat & Hm & Hlen & Hrows); [lia| |].
      { eapply Forall_impl; [exact Hall|]. simpl. intros row Hr. lia. }
      rewrite Hm. split; [eauto|]. intros _ _. exists mat. split; [reflexivity|].
      unfold same_shape. apply Forall2_same_length_lookup_2; [exact Hlen|].
      intros i r r' Hr Hr'.
      rewrite Forall_forall in Hrows, Hall.
      rewrite (Hrows r), (Hall r'); [lia| |].
      * apply list_elem_of_lookup. eauto.
      * apply list_elem_of_lookup. eauto.
    + rewrite (TfIdf_rows_unrecognised t _ _ _ _ Ht); [|lia|lia].
      split; [eauto|]. intros _ Ht'. contradiction.
  - intros row0 rest -> H0. unfold TfIdf.
    rewrite (proj2 (Nat.eqb_eq _ _) H0). simpl negb. cbv iota. split.
    + intros mat H. apply TfIdf_rows_error in H as (? & _). discriminate.
    + intros Ht Hex. rewrite H0. apply TfIdf_rows_short; [assumption|lia|].
      apply Exists_cons. right. exact Hex.
Qed.

End TfIdfErrors.

(** ** [cosineSimilarity] *)

Section CosineProperties.

Import Similarity.

(** The loop over [vec1] reads [vec2] at the same indices: on vectors of
    equal length it returns the dot product and the two sums of squares. *)
Lemma cosine_loop_sums (pre a b : list R) (d na nb : R) :
  length a = length b ->
  cosine_loop (pre ++ b) (length pre) a (d, na, nb)
  = Done (d + dot a b, na + sumsq a, nb + sumsq b)%R.
Proof.
  revert pre b d na nb. induction a as [|x a IH]; intros pre [|y b] d na nb Hlen;
    try discriminate; simpl.
  - rewrite !Rplus_0_r. reflexivity.
  - unfold index. rewrite list_lookup_middle by reflexivity. rewrite bind_Done.
    replace (pre ++ y :: b) with ((pre ++ [y]) ++ b) by (rewrite <- app_assoc; reflexivity).
    replace (S (length pre)) with (length (pre ++ [y])) by (rewrite length_app; simpl; lia).
    rewrite IH by (simpl in Hlen; lia). f_equal. f_equal; [f_equal|]; lra.
Qed.

Lemma cosineSimilarity_eq (a b : list R) :
  length a = length b ->
  cosineSimilarity a b
  = if decide (sumsq a = 0%R \/ sumsq b = 0%R) then Done 0%R
    else Math.Div (dot a b) (sqrt (sumsq a) * sqrt (sumsq b))%R.
Proof.
  intros Hlen. unfold cosineSimilarity.
  pose proof (cosine_loop_sums [] a b 0 0 0 Hlen) as Hloop. simpl in Hloop.
  rewrite Hloop, bind_Done, !Rplus_0_l.
  destruct (decide _); [reflexivity|].
  rewrite !Sqrt_Done by apply sumsq_nonneg. reflexivity.
Qed.



Lemma sqrt_sumsq_ne_0 (a : list R) : sumsq a <> 0%R -> sqrt (sumsq a) <> 0%R.
Proof.
  intros H Hs. apply H. apply sqrt_eq_0; [apply sumsq_nonneg|exact Hs].
Qed.



End CosineProperties.

(** ** The matrix [TfIdf] returns *)

Section TfIdfTable.

Import Tfidf.

Variable t : TfIdfVectorizer.

Lemma weighted_zip (row idfVec : list R) :
  length row = length idfVec ->
  mapM (fun j => tf ← index row j; idf ← index idfVec j; Done (tf * idf)%R)
       (seq 0 (length row)) = Done (zip_with Rmult row idfVec).
Proof.
  intros Hlen.
  replace (zip_with Rmult row idfVec)
    with (map (fun j => nth j row 0 * nth j idfVec 0)%R (seq 0 (length row))).
  - apply mapM_Done, Forall_forall. intros j Hj. apply elem_of_seq in Hj.
    destruct (lookup_lt_is_Some_2 row j) as [x Hx]; [lia|].
    destruct (lookup_lt_is_Some_2 idfVec j) as [y Hy]; [lia|].
    rewrite (index_Done _ _ _ Hx), bind_Done, (index_Done _ _ _ Hy), bind_Done.
    rewrite (nth_lookup_Some _ _ 0%R _ Hx), (nth_lookup_Some _ _ 0%R _ Hy).
    reflexivity.
  - apply list_eq. intros j. rewrite lookup_map, lookup_zip_with.
    destruct (le_lt_dec (length row) j) as [Hge|Hlt].
    + rewrite (lookup_ge_None_2 (seq 0 (length row)) j) by (rewrite length_seq; lia).
      rewrite (lookup_ge_None_2 row j) by lia. reflexivity.
    + rewrite lookup_seq_lt by lia.
      destruct (lookup_lt_is_Some_2 row j) as [x Hx]; [lia|].
      destruct (lookup_lt_is_Some_2 idfVec j) as [y Hy]; [lia|].
      rewrite Hx, Hy. simpl.
      rewrite (nth_lookup_Some _ _ 0%R _ Hx), (nth_lookup_Some _ _ 0%R _ Hy).
      reflexivity.
Qed.

Lemma doNormalize_eq (vec : list R) :
  recognised (NormLevel t) ->
  doNormalize t vec = Done (normalize_row (NormLevel t) vec, None).
Proof.
  unfold doNormalize, normalize_row. intros [H|[H|H]]; rewrite H; simpl.
  - reflexivity.
  - rewrite l1Normalize_eq. reflexivity.
  - rewrite l2Normalize_eq. reflexivity.
Qed.

Lemma TfIdf_rows_table (idfVec : list R) (rows : list (list R)) :
  recognised (NormLevel t) ->
  Forall (fun row => length row = length idfVec) rows ->
  TfIdf_rows t (length idfVec) idfVec rows
  = Done (map (tfidf_row (NormLevel t) idfVec) rows, None).
Proof.
  intros Ht. induction 1 as [|row rows Hrow _ IH]; [reflexivity|].
  simpl TfIdf_rows. rewrite <- Hrow at 1.
  rewrite (weighted_zip row idfVec Hrow), bind_Done.
  rewrite (doNormalize_eq _ Ht), bind_Done, IH. reflexivity.
Qed.

(** On a recognised level, for a matrix that is not empty and whose rows
    have the length of the IDF vector, [TfIdf] returns the rows of products
    [tf[i][j] * idf[j]], each normalized on its own. *)
Lemma TfIdf_table (tfVec : list (list R)) (idfVec : list R) :
  recognised (NormLevel t) -> tfVec <> [] ->
  Forall (fun row => length row = length idfVec) tfVec ->
  TfIdf t tfVec idfVec = Done (map (tfidf_row (NormLevel t) idfVec) tfVec, None).
Proof.
  intros Ht Hne Hall. unfold TfIdf.
  destruct tfVec as [|row0 rest]; [contradiction|].
  pose proof (Forall_inv Hall) as H0. simpl in H0.
  rewrite (proj2 (Nat.eqb_eq _ _) H0). simpl negb. cbv iota.
  rewrite H0. apply TfIdf_rows_table; assumption.
Qed.

End TfIdfTable.

(** ** The engine *)

Section DoProperties.

Import Similarity.

Variable Letter : Z -> bool.

Lemma Tokenize_corpus :
  Token.Tokenize Letter lower_tokenizer ["apple orange"; "banana grape"]
  = (["apple"; "banana"; "grape"; "orange"], [["apple"; "orange"]; ["banana"; "grape"]]).
Proof. vm_compute. reflexivity. Qed.

Lemma Tokenize_query :
  Token.Tokenize Letter lower_tokenizer ["apple banana"]
  = (["apple"; "banana"], [["apple"; "banana"]]).
Proof. vm_compute. reflexivity. Qed.

(** C1.  With the tokenizer that lowercases and the default vectorizer (level
    [L2Norm]), [Do] on the query ["apple banana"] and the corpus
    ["apple orange"], ["banana grape"] returns no error and the scores
    [1/2], [1/2], in the order of the documents. *)
Theorem Do_apple_banana :
  Do (default_engine Letter) "apple banana" ["apple orange"; "banana grape"]
  = Done ([(1 / 2)%R; (1 / 2)%R], None).
Proof.
  unfold Do, default_engine, NewCosineSimilarity, of_Tokenizer, of_TfIdfVectorizer.
  cbn [Tokenize tokenizer_ vectorizer_ TfIdf].
  rewrite Tokenize_corpus, Tokenize_query. rewrite !bind_Done.
  rewrite Idf_table, bind_Done.
  rewrite !Tf_table. cbn [map length].
  repeat match goal with
  | |- context [df ?a ?b] =>
      let v := eval vm_compute in (df a b) in change (df a b) with v
  | |- context [occurrences ?a ?b] =>
      let v := eval vm_compute in (occurrences a b) in change (occurrences a b) with v
  end.
  unfold idf_weight. cbn [Nat.eqb Nat.add].
  set (c := (ln (INR 3 / INR 2) + 1)%R).
  assert (Hrec : recognised (Tfidf.NormLevel (Tfidf.NewTfIdfVectorizer [])))
    by (right; right; reflexivity).
  rewrite (TfIdf_table _ _ _ Hrec); [|discriminate|repeat constructor].
  rewrite !bind_Done. cbv iota beta.
  rewrite Tf_table. cbn [map].
  repeat match goal with
  | |- context [occurrences ?a ?b] =>
      let v := eval vm_compute in (occurrences a b) in change (occurrences a b) with v
  end.
  rewrite (TfIdf_table _ _ _ Hrec); [|discriminate|repeat constructor].
  rewrite !bind_Done. cbv iota beta.
  change (INR 1) with 1%R. change (INR 0) with 0%R.
  unfold tfidf_row, normalize_row.
  change (Tfidf.NormLevel (Tfidf.NewTfIdfVectorizer [])) with 2.
  cbn [map zip_with Z.eqb Pos.eqb Tfidf.L1Norm Tfidf.L2Norm replicate].
  assert (Hc : (0 < c)%R).
  { apply (idf_weight_pos 2 1 true). lia. }
  set (n := sqrt (2 * (c * c))).
  assert (Hnn : (n * n = 2 * (c * c))%R) by (apply sqrt_sqrt; nra).
  assert (Hn : n <> 0%R) by (intros Hz; rewrite Hz in Hnn; nra).
  replace (norm2 [1 * c; 1 * c; 0 * c; 0 * c])%R with n
    by (unfold n, norm2, sumsq; cbn [fold_right]; f_equal; ring).
  replace (norm2 [1 * c; 0 * c; 0 * c; 1 * c])%R with n
    by (unfold n, norm2, sumsq; cbn [fold_right]; f_equal; ring).
  replace (norm2 [0 * c; 1 * c; 1 * c; 0 * c])%R with n
    by (unfold n, norm2, sumsq; cbn [fold_right]; f_equal; ring).
  rewrite !decide_False by exact Hn.
  set (x := (c / n)%R).
  assert (Hx : (x * x = 1 / 2)%R).
  { unfold x. replace (c / n * (c / n))%R with (c * c / (n * n))%R by (field; exact Hn).
    rewrite Hnn. field. lra. }
  replace (1 * c / n)%R with x by (unfold x; field; exact Hn).
  replace (0 * c / n)%R with 0%R by (field; exact Hn).
  assert (Hcos : forall q d : list R,
            length q = length d -> sumsq q = 1%R -> sumsq d = 1%R ->
            dot q d = (1 / 2)%R -> cosineSimilarity q d = Done (1 / 2)%R).
  { intros q d Hlen Hq Hd Hdot. rewrite (cosineSimilarity_eq q d Hlen), Hq, Hd, Hdot.
    rewrite decide_False by lra. rewrite sqrt_1, Div_Done by lra.
    f_equal. field. }
  cbn [score_loop]. unfold index, assign. cbn [lookup list_lookup length].
  rewrite !bind_Done.
  rewrite !Hcos; try reflexivity; try (unfold sumsq; cbn [fold_right]; lra);
    try (cbn [dot]; lra).
  destruct (decide (0 < 2)%nat) as [_|Hlt]; [|lia].
  rewrite !bind_Done. cbn [list_insert insert length].
  rewrite Hcos.
  - rewrite bind_Done. destruct (decide (1 < 2)%nat) as [_|Hlt]; [|lia].
    reflexivity.
  - reflexivity.
  - unfold sumsq; cbn [fold_right]; lra.
  - unfold sumsq; cbn [fold_right]; lra.
  - cbn [dot]; lra.
Qed.

End DoProperties.

(** ** Instances and counterexamples *)

Section Instances.

Import Tfidf.

(** [Tf] on the example of its documentation. *)
Lemma Tf_counts_example :
  exists row, Tf ["the"; "cat"; "dog"] [["the"; "cat"]; ["the"; "the"]] !! 1%nat = Some row /\
    row !! 0%nat = Some (INR 2) /\ row !! 2%nat = Some 0%R.
Proof.
  destruct (Tf_counts ["the"; "cat"; "dog"] [["the"; "cat"]; ["the"; "the"]])
    as (_ & _ & H).
  destruct (H 1%nat 0%nat ["the"; "the"] "the" eq_refl eq_refl) as (row & Hrow & H0 & _).
  destruct (H 1%nat 2%nat ["the"; "the"] "dog" eq_refl eq_refl) as (row' & Hrow' & _ & H2).
  exists row. split; [exact Hrow|]. split; [exact H0|].
  rewrite Hrow in Hrow'. injection Hrow' as <-. apply H2.
  intros Hin. apply list_elem_of_In in Hin. simpl in Hin.
  destruct Hin as [Hin|[Hin|[]]]; discriminate.
Defined.

(** A term of one document out of two, with smoothing. *)
Lemma Idf_weights_example :
  exists idfVec, Idf ["cat"] [["cat"]; ["dog"]] true = Done idfVec /\
    idfVec !! 0%nat = Some (ln (INR 3 / INR 2) + 1)%R.
Proof.
  destruct (Idf_weights ["cat"] [["cat"]; ["dog"]] true) as (v & Hv & _ & H).
  exists v. split; [exact Hv|].
  destruct (H 0%nat "cat" eq_refl) as (_ & _ & H3 & _).
  apply H3. reflexivity.
Defined.

(** A term of every document, without smoothing. *)
Lemma Idf_positive_example :
  exists idfVec, Idf ["cat"] [["cat"]; ["the"; "cat"]] false = Done idfVec /\
    idfVec !! 0%nat = Some 1%R.
Proof.
  destruct (Idf_positive ["cat"] [["cat"]; ["the"; "cat"]] false) as (v & Hv & _ & H).
  exists v. split; [exact Hv|].
  apply (H 0%nat "cat" eq_refl eq_refl).
  - simpl. lia.
  - repeat constructor.
Defined.

(** The all-zero row under both normalizations. *)
Lemma normalize_zero_row_example :
  l1Normalize [0; 0]%R = Done [0; 0]%R /\ l2Normalize [0; 0]%R = Done [0; 0]%R.
Proof.
  apply (normalize_zero_row [0; 0]%R). repeat constructor.
Defined.


(** C6 as stated fails: with an unrecognised level, an empty matrix is
    [EmptyInput] and a first row of the wrong length is [ShapeMismatch], not
    [InvalidConfig]. *)
Lemma TfIdf_unrecognised_not_InvalidConfig :
  TfIdf (NewTfIdfVectorizer [WithNormLevel 3]) [] [] = Done ([], Some EmptyInput) /\
  TfIdf (NewTfIdfVectorizer [WithNormLevel 3]) [[1%R]] [] = Done ([], Some ShapeMismatch) /\
  ~ recognised (NormLevel (NewTfIdfVectorizer [WithNormLevel 3])).
Proof.
  split; [reflexivity|]. split; [reflexivity|].
  intros [H|[H|H]]; discriminate.
Qed.

(** The three failures of [TfIdf], in the order of its checks. *)
Lemma TfIdf_errors_example :
  TfIdf (NewTfIdfVectorizer [WithNormLevel 3]) [] [1%R] = Done ([], Some EmptyInput) /\
  TfIdf (NewTfIdfVectorizer [WithNormLevel 3]) [[1%R]] [1%R] = Done ([], Some InvalidConfig).
Proof.
  split.
  - apply (TfIdf_errors (NewTfIdfVectorizer [WithNormLevel 3]) [] [1%R]). reflexivity.
  - apply (TfIdf_errors (NewTfIdfVectorizer [WithNormLevel 3]) [[1%R]] [1%R]).
    exists [1%R], []. split; [reflexivity|]. split; [reflexivity|].
    intros [H|[H|H]]; discriminate.
Defined.

(** C10 as stated fails: a matrix whose rows all have the length of the
    IDF vector can be refused, the empty one with [EmptyInput] and any one
    with [InvalidConfig] on an unrecognised level; the matrix returned is
    then [nil]. *)
Lemma TfIdf_rectangular_refused :
  Forall (fun row => length row = length [1%R]) ([] : list (list R)) /\
  TfIdf (NewTfIdfVectorizer []) [] [1%R] = Done ([], Some EmptyInput) /\
  Forall (fun row => length row = length [1%R]) [[1%R]] /\
  TfIdf (NewTfIdfVectorizer [WithNormLevel 3]) [[1%R]] [1%R] = Done ([], Some InvalidConfig).
Proof.
  split; [constructor|]. split; [reflexivity|].
  split; [repeat constructor|]. reflexivity.
Qed.

(** A ragged matrix with a first row of the right length: no
    [ShapeMismatch], but an index out of range at the short row. *)
Lemma TfIdf_first_row_only_example :
  TfIdf (NewTfIdfVectorizer []) [[1; 2]; [3]]%R [1; 1]%R = Fault IndexOutOfRange /\
  exists mat, TfIdf (NewTfIdfVectorizer [WithNormLevel NoNorm]) [[1; 2]; [3; 4]]%R [1; 1]%R
              = Done (mat, None) /\ same_shape mat [[1; 2]; [3; 4]]%R.
Proof.
  split.
  - apply (TfIdf_first_row_only (NewTfIdfVectorizer []) [[1; 2]; [3]]%R [1; 1]%R)
      with (row0 := [1; 2]%R) (rest := [[3%R]]).
    + reflexivity.
    + reflexivity.
    + right. right. reflexivity.
    + constructor. simpl. lia.
  - apply (TfIdf_first_row_only (NewTfIdfVectorizer [WithNormLevel NoNorm])
             [[1; 2]; [3; 4]]%R [1; 1]%R).
    + repeat constructor.
    + discriminate.
    + left. reflexivity.
Defined.

(** Two corpora with the documents in opposite orders. *)
Lemma Tokenize_vocabulary_example :
  (Token.Tokenize (fun _ => false) (Token.NewTokenizer []) ["pear apple"; "fig"]).1
  = (Token.Tokenize (fun _ => false) (Token.NewTokenizer []) ["fig"; "pear apple"]).1.
Proof.
  apply (Tokenize_vocabulary (fun _ => false) (Token.NewTokenizer []) ["fig"; "pear apple"]).
  apply perm_swap.
Defined.

End Instances.

(** * Further properties *)

(** ** The tokens of the scanner *)

Section TokenContent.

Import Utf8 Token.

Variable Letter : Z -> bool.

(** The code points read do not depend on the fuel, once it is enough, nor
    on the offset. *)
Lemma range_from_fuel (f : nat) :
  forall (f' : nat) (i j : Z) (s : string),
    (String.length s <= f)%nat -> (String.length s <= f')%nat ->
    map snd (range_from f i s) = map snd (range_from f' j s).
Proof.
  induction f as [|f IH]; intros f' i j s Hf Hf'.
  - destruct s; [|simpl in Hf; lia]. destruct f'; reflexivity.
  - destruct s as [|c s]; [destruct f'; reflexivity|].
    destruct f' as [|f']; [simpl in Hf'; lia|].
    pose proof (DecodeRuneInString_width c s) as Hw.
    cbn [range_from]. destruct (DecodeRuneInString (String c s)) as [r w].
    cbn [map snd]. f_equal. apply IH; rewrite length_skip; simpl in *; lia.
Qed.

(** The code points of a well-formed sequence followed by a string. *)
Lemma runes_cons (bs s : string) (r : Z) :
  Encoded (bytes bs) r -> runes (bs +:+ s) = r :: runes s.
Proof.
  intros He. unfold runes, range.
  pose proof (Encoded_length _ _ He) as Hl. rewrite length_bytes in Hl.
  destruct (bs +:+ s) as [|c s'] eqn:Heq.
  { apply (f_equal String.length) in Heq. rewrite length_append in Heq.
    simpl in Heq. lia. }
  cbn [String.length range_from]. rewrite <- Heq.
  unfold DecodeRuneInString. rewrite bytes_append, (Encoded_DecodeRune _ _ _ He).
  rewrite length_bytes, skip_append. cbn [map snd]. f_equal.
  apply range_from_fuel; [|lia].
  apply (f_equal String.length) in Heq. rewrite length_append in Heq.
  simpl in Heq. lia.
Qed.

Lemma runes_append_fuel (n : nat) :
  forall s1 s2 : string,
    (String.length s1 <= n)%nat -> ValidString s1 = true ->
    runes (s1 +:+ s2) = runes s1 ++ runes s2.
Proof.
  induction n as [|n IH]; intros s1 s2 Hn H1.
  - destruct s1; [reflexivity|simpl in Hn; lia].
  - destruct s1 as [|c s1]; [reflexivity|].
    pose proof (DecodeRuneInString_width c s1) as Hw.
    unfold ValidString in H1. cbn [String.length valid_from] in H1.
    destruct (DecodeRuneInString (String c s1)) as [r w] eqn:Hd.
    cbn [fst snd] in Hw. apply andb_true_iff in H1 as [Hok H1].
    assert (He : Encoded (bytes (substring 0 w (String c s1))) r).
    { rewrite bytes_prefix. apply DecodeRune_Encoded;
        [apply bytes_bounded|discriminate|exact Hd|].
      intros [-> ->]. rewrite Z.eqb_refl in Hok. discriminate. }
    rewrite <- (prefix_skip w (String c s1)), append_assoc.
    rewrite !(runes_cons _ _ _ He). rewrite IH; [reflexivity| |].
    + rewrite length_skip. simpl in *. lia.
    + unfold ValidString.
      rewrite (valid_from_fuel _ (String.length s1)); [exact H1| |];
        rewrite length_skip; simpl in *; lia.
Qed.

Lemma runes_append (s1 s2 : string) :
  ValidString s1 = true -> runes (s1 +:+ s2) = runes s1 ++ runes s2.
Proof. apply (runes_append_fuel (String.length s1)). lia. Qed.

Lemma close_run_letters (cur : string) :
  cur = EmptyString \/ letters_only Letter cur ->
  Forall (letters_only Letter) (close_run cur).
Proof.
  intros [->|H]; [constructor|].
  destruct cur; [destruct H as [H _]; congruence|]. constructor; [exact H|constructor].
Qed.

(** The runs of letters are strings of letters, as [RuneError] is no
    letter. *)
Lemma letter_runs_letters (ps : list (Z * string)) :
  Letter RuneError = false ->
  Forall (fun p : Z * string => p.1 <> RuneError -> Encoded (bytes p.2) p.1) ps ->
  forall cur : string, cur = EmptyString \/ letters_only Letter cur ->
    Forall (letters_only Letter) (letter_runs Letter cur ps).
Proof.
  intros HL. induction 1 as [|[r bs] ps Hp _ IH]; intros cur Hcur.
  - apply close_run_letters. exact Hcur.
  - cbn [letter_runs]. destruct (Unicode.IsLetter Letter r) eqn:Hr.
    + apply IH. right.
      assert (He : Encoded (bytes bs) r).
      { apply Hp. cbn [fst]. intros ->.
        unfold Unicode.IsLetter in Hr. simpl in Hr. congruence. }
      assert (Hbs : ValidString bs = true /\ runes bs = [r]).
      { rewrite <- (append_empty_r bs). split.
        - apply (ValidString_cons _ _ r He). reflexivity.
        - rewrite (runes_cons _ _ _ He). reflexivity. }
      destruct Hbs as [Hv Hrs].
      destruct Hcur as [->|(Hne & Hcv & Hcl)].
      * split; [|split].
        -- intros Heq. apply (f_equal String.length) in Heq.
           pose proof (Encoded_length _ _ He) as Hl. rewrite length_bytes in Hl.
           rewrite length_append in Heq. simpl in Heq. lia.
        -- exact Hv.
        -- change (EmptyString +:+ bs) with bs. rewrite Hrs. repeat constructor. exact Hr.
      * split; [|split].
        -- intros Heq. apply (f_equal String.length) in Heq.
           rewrite length_append in Heq. destruct cur; [congruence|].
           simpl in Heq. lia.
        -- apply ValidString_append; assumption.
        -- rewrite (runes_append _ _ Hcv), Hrs. apply Forall_app. split; [exact Hcl|].
           repeat constructor. exact Hr.
    + apply Forall_app. split; [apply close_run_letters; exact Hcur|].
      apply IH. left. reflexivity.
Qed.

End TokenContent.

Section TokenizerExtras.

Import Utf8 Token.

Variable Letter : Z -> bool.

Lemma doNormalize_raw (token : string) : doNormalize raw_tokenizer token = token.
Proof. reflexivity. Qed.

Lemma tokenize_raw (doc : string) :
  tokenize Letter raw_tokenizer doc
  = filter (fun run => 1 < len run) (maximal_letter_runs Letter doc).
Proof.
  rewrite tokenize_runs.
  rewrite (map_ext (doNormalize raw_tokenizer) (fun token => token)) by apply doNormalize_raw.
  apply List.map_id.
Qed.

(** X1.  [tokenize] finds the maximal runs of letters of the document, keeps the
    ones that are at least two bytes long, and passes each through
    [doNormalize], in the order of the document. *)
Theorem tokenize_is_letter_runs (t : Tokenizer) (doc : string) :
  tokenize Letter t doc
  = map (doNormalize t)
        (filter (fun run => 1 < len run) (maximal_letter_runs Letter doc)).
Proof. apply tokenize_runs. Qed.

(** X2.  The normalization function changes the content of the tokens only, not
    their number nor their boundaries: the tokens of a document are the
    images of the tokens found without normalization. *)
Theorem tokenize_normalization (t : Tokenizer) (doc : string) :
  tokenize Letter t doc = map (doNormalize t) (tokenize Letter raw_tokenizer doc) /\
  length (tokenize Letter t doc) = length (tokenize Letter raw_tokenizer doc).
Proof.
  assert (H : tokenize Letter t doc
              = map (doNormalize t) (tokenize Letter raw_tokenizer doc)).
  { rewrite tokenize_raw. apply tokenize_runs. }
  split; [exact H|]. rewrite H. apply length_map.
Qed.

(** X3.  Without a normalization function, and as [RuneError] is no letter,
    every token is at least two bytes long, is well-formed UTF-8 and holds
    letters only. *)
Theorem tokenize_tokens_are_letters (doc : string) :
  Letter RuneError = false ->
  Forall (fun token => 1 < len token /\ letters_only Letter token)
         (tokenize Letter raw_tokenizer doc).
Proof.
  intros HL. rewrite tokenize_raw. apply Forall_forall. intros run Hrun.
  apply list_elem_of_filter in Hrun as [Hlen Hrun]. split; [exact Hlen|].
  clear Hlen. revert run Hrun. apply Forall_forall.
  apply (letter_runs_letters Letter _ HL (split_from_Encoded Letter _ _) EmptyString).
  left. reflexivity.
Qed.

Lemma split_from_runes (fuel : nat) :
  forall (i : Z) (s : string),
    map fst (split_from fuel s) = map snd (range_from fuel i s).
Proof.
  induction fuel as [|fuel IH]; intros i s; [reflexivity|].
  destruct s as [|c s]; [reflexivity|].
  cbn [split_from range_from].
  destruct (DecodeRuneInString (String c s)) as [r w].
  cbn [map fst snd]. f_equal. apply IH.
Qed.

Lemma letter_runs_none (ps : list (Z * string)) :
  Forall (fun r => Unicode.IsLetter Letter r = false) (map fst ps) ->
  letter_runs Letter EmptyString ps = [].
Proof.
  induction ps as [|[r bs] ps IH]; intros H; [reflexivity|].
  apply Forall_cons in H as [Hr H]. cbn [letter_runs fst] in *.
  rewrite Hr. apply IH. exact H.
Qed.

(** X4.  A document without a letter, the empty document among them, has no
    token. *)
Theorem tokenize_no_letter (t : Tokenizer) (doc : string) :
  Forall (fun r => Unicode.IsLetter Letter r = false) (runes doc) ->
  tokenize Letter t doc = [].
Proof.
  intros H. rewrite tokenize_runs. unfold maximal_letter_runs, split.
  rewrite letter_runs_none; [reflexivity|].
  rewrite (split_from_runes _ 0). exact H.
Qed.

(** X5.  With a normalization function [f], [Tokenize] stores [f (f run)] for
    every run that [tokenize] keeps: [tokenize] applies [f] to the run, and
    [Tokenize] applies it once more to the token. *)
Theorem Tokenize_normalizes_twice (t : Tokenizer) (f : string -> string)
    (documents : list string) :
  normalizeFunc t = Some f ->
  (Tokenize Letter t documents).2
  = map (fun doc => map (fun token => f (f token)) (tokenize Letter raw_tokenizer doc))
        documents.
Proof.
  intros Hf. rewrite Tokenize_tokens. apply map_ext. intros doc.
  rewrite tokenize_raw, Hf. reflexivity.
Qed.

End TokenizerExtras.

(** ** The vocabulary as a function of the tokens *)

Section VocabularyExtras.

Import Token.

Lemma terms_of_app (tokens tokens' : list (list string)) :
  terms_of (tokens ++ tokens') = terms_of tokens ++ terms_of tokens'.
Proof. unfold terms_of. apply concat_app. Qed.

Lemma terms_of_single (doc : list string) : terms_of [doc] = doc.
Proof. unfold terms_of. simpl. apply app_nil_r. Qed.

(** X6.  The vocabulary of a vocabulary is that vocabulary, the vocabulary of
    no token at all is empty, and the vocabulary of two corpora put together
    is the vocabulary of their two vocabularies. *)
Theorem vocabulary_of_vocabulary (tokens tokens' : list (list string)) :
  vocabulary [vocabulary tokens] = vocabulary tokens /\
  vocabulary [] = [] /\
  vocabulary (tokens ++ tokens') = vocabulary [vocabulary tokens; vocabulary tokens'].
Proof.
  split; [|split].
  - apply vocabulary_unique. intros x. rewrite terms_of_single.
    apply vocabulary_spec.
  - reflexivity.
  - apply vocabulary_unique. intros x.
    change [vocabulary tokens; vocabulary tokens']
      with ([vocabulary tokens] ++ [vocabulary tokens']).
    rewrite !terms_of_app, !terms_of_single, !elem_of_app.
    rewrite (proj2 (proj2 (vocabulary_spec tokens)) x).
    rewrite (proj2 (proj2 (vocabulary_spec tokens')) x). tauto.
Qed.

End VocabularyExtras.

(** ** [Tf]: the sum of a row *)

Section TfExtras.

Import Tfidf.

Lemma sum_list_INR (l : list nat) :
  sum_list (map INR l) = INR (foldr Nat.add 0%nat l).
Proof.
  induction l as [|n l IH]; simpl; [reflexivity|].
  rewrite IH, plus_INR. reflexivity.
Qed.

Lemma occurrences_cons (term tok : string) (doc : list string) :
  occurrences term (tok :: doc)
  = ((if decide (tok = term) then 1 else 0) + occurrences term doc)%nat.
Proof.
  unfold occurrences. rewrite filter_cons.
  destruct (decide (tok = term)); reflexivity.
Qed.

(** Over a vocabulary without duplicates, the occurrences of the terms in a
    document add up to the number of its tokens that are in the
    vocabulary. *)
Lemma occurrences_sum (vocabulary doc : list string) :
  NoDup vocabulary ->
  foldr Nat.add 0%nat (map (fun term => occurrences term doc) vocabulary)
  = length (filter (fun token => token ∈ vocabulary) doc).
Proof.
  intros Hnd. induction doc as [|tok doc IH].
  - simpl. induction vocabulary as [|term v IHv]; [reflexivity|].
    simpl. apply IHv. apply NoDup_cons in Hnd. tauto.
  - rewrite filter_cons.
    assert (Hstep : foldr Nat.add 0%nat (map (fun term => occurrences term (tok :: doc)) vocabulary)
                    = ((if decide (tok ∈ vocabulary) then 1 else 0)
                       + foldr Nat.add 0%nat (map (fun term => occurrences term doc) vocabulary))%nat).
    { clear IH. induction Hnd as [|term v Hterm Hnd IHv]; [reflexivity|].
      cbn [map foldr]. rewrite IHv, occurrences_cons.
      destruct (decide (tok = term)) as [?|?];
        destruct (decide (tok ∈ term :: v)) as [?|?];
        destruct (decide (tok ∈ v)) as [?|?];
        try lia; exfalso; subst;
        repeat match goal with
               | H : _ ∈ _ :: _ |- _ => apply elem_of_cons in H
               | H : _ ∉ _ :: _ |- _ => rewrite elem_of_cons in H
               end; tauto. }
    rewrite Hstep, IH. destruct (decide (tok ∈ vocabulary)); simpl; lia.
Qed.

Lemma Tf_row_sum_in (vocabulary : list string) (tokens : list (list string))
    (i : nat) (doc : list string) (row : list R) :
  NoDup vocabulary ->
  tokens !! i = Some doc -> Tf vocabulary tokens !! i = Some row ->
  sum_list row = INR (length (filter (fun token => token ∈ vocabulary) doc)).
Proof.
  intros Hnd Hdoc Hrow. rewrite Tf_table, lookup_map, Hdoc in Hrow.
  injection Hrow as <-.
  rewrite <- (occurrences_sum vocabulary doc Hnd), <- sum_list_INR, map_map.
  reflexivity.
Qed.

Lemma filter_all {A} (P : A -> Prop) `{forall x, Decision (P x)} (l : list A) :
  Forall P l -> filter P l = l.
Proof.
  induction 1 as [|x l Hx _ IH]; [reflexivity|].
  rewrite filter_cons, decide_True by exact Hx. f_equal. exact IH.
Qed.

(** X7.  For a vocabulary without duplicates, the entries of the row of a
    document add up to the number of tokens of the document that are in the
    vocabulary: tokens outside the vocabulary are not counted, the others
    once each.  The entries are not negative. *)
Theorem Tf_row_sum (vocabulary : list string) (tokens : list (list string))
    (i : nat) (doc : list string) (row : list R) :
  NoDup vocabulary ->
  tokens !! i = Some doc -> Tf vocabulary tokens !! i = Some row ->
  sum_list row = INR (length (filter (fun token => token ∈ vocabulary) doc)) /\
  Forall (fun x => (0 <= x)%R) row.
Proof.
  intros Hnd Hdoc Hrow. split; [exact (Tf_row_sum_in _ _ _ _ _ Hnd Hdoc Hrow)|].
  rewrite Tf_table, lookup_map, Hdoc in Hrow. injection Hrow as <-.
  apply Forall_map, Forall_forall. intros term _. apply pos_INR.
Qed.

(** X8.  [Tf] on the vocabulary and the tokens that [Tokenize] returns: every
    token of a document is counted, so that the entries of its row add up
    to the number of its tokens. *)
Theorem Tokenize_Tf_row_sum (Letter : Z -> bool) (t : Token.Tokenizer)
    (documents : list string) (i : nat) (doc : list string) (row : list R) :
  let vocab := (Token.Tokenize Letter t documents).1 in
  let tokens := (Token.Tokenize Letter t documents).2 in
  tokens !! i = Some doc -> Tf vocab tokens !! i = Some row ->
  sum_list row = INR (length doc).
Proof.
  unfold Token.Tokenize. cbn [fst snd].
  set (tokens := map _ documents). intros Hdoc Hrow.
  destruct (vocabulary_spec tokens) as (Hnd & _ & Hel).
  rewrite (Tf_row_sum_in _ _ _ _ _ Hnd Hdoc Hrow). f_equal. f_equal.
  apply filter_all, Forall_forall. intros token Htoken.
  apply Hel, elem_of_terms_of. exists doc. split; [|exact Htoken].
  apply list_elem_of_lookup. eauto.
Qed.

End TfExtras.

(** ** [Idf]: bounds and order of the weights *)

Section IdfExtras.

Import Tfidf.

Lemma ln_le (x y : R) : (0 < x)%R -> (x <= y)%R -> (ln x <= ln y)%R.
Proof.
  intros Hx [Hlt| ->]; [|lra]. left. apply ln_increasing; assumption.
Qed.

Lemma ratio_antitone (n d1 d2 : nat) :
  (0 < d1 <= d2)%nat -> (INR n / INR d2 <= INR n / INR d1)%R.
Proof.
  intros [H1 H12].
  assert (0 < INR d1)%R by (apply INR_pos; lia).
  assert (INR d1 <= INR d2)%R by (apply le_INR; lia).
  pose proof (pos_INR n).
  unfold Rdiv. apply Rmult_le_compat_l; [assumption|].
  apply Rinv_le_contravar; assumption.
Qed.

Lemma ratio_pos (n d : nat) : (0 < n)%nat -> (0 < d)%nat -> (0 < INR n / INR d)%R.
Proof.
  intros Hn Hd. apply Rdiv_lt_0_compat; apply INR_pos; assumption.
Qed.

(** The weight falls as the document frequency grows. *)
Lemma idf_weight_antitone (N d1 d2 : nat) (smoothing : bool) :
  (d1 <= d2 <= N)%nat -> (idf_weight N d2 smoothing <= idf_weight N d1 smoothing)%R.
Proof.
  intros [H12 H2]. unfold idf_weight.
  destruct (Nat.eqb_spec N 0) as [HN|HN]; [lra|].
  destruct smoothing.
  - pose proof (ratio_antitone (N + 1) (d1 + 1) (d2 + 1) ltac:(lia)).
    pose proof (ratio_pos (N + 1) (d2 + 1) ltac:(lia) ltac:(lia)).
    pose proof (ln_le _ _ H0 H). lra.
  - destruct (Nat.eqb_spec d1 0) as [Hd1|Hd1]; destruct (Nat.eqb_spec d2 0) as [Hd2|Hd2];
      try lia; try lra.
    + pose proof (ratio_antitone N 1 d2 ltac:(lia)) as Hr.
      pose proof (ratio_pos N d2 ltac:(lia) ltac:(lia)) as Hp.
      pose proof (ln_le _ _ Hp Hr) as Hl.
      replace (INR N / INR 1)%R with (INR N) in Hl by (simpl; field). lra.
    + pose proof (ratio_antitone N d1 d2 ltac:(lia)) as Hr.
      pose proof (ratio_pos N d2 ltac:(lia) ltac:(lia)) as Hp.
      pose proof (ln_le _ _ Hp Hr). lra.
Qed.

Lemma idf_weight_smooth_strict (N d1 d2 : nat) :
  (d1 < d2 <= N)%nat -> (idf_weight N d2 true < idf_weight N d1 true)%R.
Proof.
  intros [H12 H2]. unfold idf_weight.
  destruct (Nat.eqb_spec N 0) as [HN|HN]; [lia|].
  assert (Hlt : (INR (N + 1) / INR (d2 + 1) < INR (N + 1) / INR (d1 + 1))%R).
  { assert (0 < INR (d1 + 1))%R by (apply INR_pos; lia).
    assert (INR (d1 + 1) < INR (d2 + 1))%R by (apply lt_INR; lia).
    assert (0 < INR (N + 1))%R by (apply INR_pos; lia).
    unfold Rdiv. apply Rmult_lt_compat_l; [assumption|].
    apply Rinv_lt_contravar; [|assumption]. apply Rmult_lt_0_compat; lra. }
  pose proof (ratio_pos (N + 1) (d2 + 1) ltac:(lia) ltac:(lia)) as Hp.
  pose proof (ln_increasing _ _ Hp Hlt). lra.
Qed.

Lemma idf_weight_bounds (N d : nat) (smoothing : bool) :
  (d <= N)%nat ->
  (1 <= idf_weight N d smoothing <= ln (INR (N + 1)) + 1)%R.
Proof.
  intros Hd. split.
  - replace 1%R with (idf_weight N N smoothing).
    + apply idf_weight_antitone. lia.
    + unfold idf_weight. destruct (Nat.eqb_spec N 0) as [HN|HN]; [reflexivity|].
      destruct smoothing.
      * replace (INR (N + 1) / INR (N + 1))%R with 1%R; [rewrite ln_1; lra|].
        field. apply not_0_INR. lia.
      * destruct (Nat.eqb_spec N 0); [contradiction|].
        replace (INR N / INR N)%R with 1%R; [rewrite ln_1; lra|].
        field. apply not_0_INR. lia.
  - apply Rle_trans with (idf_weight N 0 smoothing).
    + apply idf_weight_antitone. lia.
    + unfold idf_weight. destruct (Nat.eqb_spec N 0) as [HN|HN].
      * rewrite HN. simpl. rewrite ln_1. lra.
      * destruct smoothing.
        -- simpl (INR (0 + 1)). replace (INR (N + 1) / 1)%R with (INR (N + 1)) by field. lra.
        -- simpl. assert (ln (INR N) <= ln (INR (N + 1)))%R; [|lra].
           apply ln_le; [apply INR_pos; lia|apply le_INR; lia].
Qed.

(** X9.  Every weight that [Idf] returns lies between 1 and [ln (N + 1) + 1],
    where [N] is the number of documents. *)
Theorem Idf_bounds (vocabulary : list string) (tokens : list (list string))
    (smoothing : bool) :
  exists idfVec, Idf vocabulary tokens smoothing = Done idfVec /\
    Forall (fun w => (1 <= w <= ln (INR (length tokens + 1)) + 1)%R) idfVec.
Proof.
  eexists. split; [apply Idf_table|].
  apply Forall_map, Forall_forall. intros term _.
  apply idf_weight_bounds, df_le.
Qed.

(** X10.  A term that occurs in fewer documents does not weigh less; with
    smoothing it weighs more. *)
Theorem Idf_rarer_weighs_more (vocabulary : list string) (tokens : list (list string))
    (smoothing : bool) (j1 j2 : nat) (term1 term2 : string) :
  vocabulary !! j1 = Some term1 -> vocabulary !! j2 = Some term2 ->
  (df term1 tokens <= df term2 tokens)%nat ->
  exists idfVec w1 w2, Idf vocabulary tokens smoothing = Done idfVec /\
    idfVec !! j1 = Some w1 /\ idfVec !! j2 = Some w2 /\ (w2 <= w1)%R /\
    (smoothing = true -> (df term1 tokens < df term2 tokens)%nat -> (w2 < w1)%R).
Proof.
  intros H1 H2 Hdf. eexists _, _, _. split; [apply Idf_table|].
  rewrite !lookup_map, H1, H2. simpl. repeat split.
  - apply idf_weight_antitone. split; [exact Hdf|apply df_le].
  - intros -> Hlt. apply idf_weight_smooth_strict. split; [exact Hlt|apply df_le].
Qed.

(** X11.  [Idf] on the vocabulary and the tokens that [Tokenize] returns: every
    term of the vocabulary occurs in at least one document, so that without
    smoothing every weight is [ln (N / df) + 1]; the case [df = 0] does not
    arise. *)
Theorem Tokenize_Idf (Letter : Z -> bool) (t : Token.Tokenizer)
    (documents : list string) :
  let vocab := (Token.Tokenize Letter t documents).1 in
  let tokens := (Token.Tokenize Letter t documents).2 in
  Forall (fun term => (1 <= df term tokens <= length documents)%nat) vocab /\
  Idf vocab tokens false
  = Done (map (fun term => (ln (INR (length documents) / INR (df term tokens)) + 1)%R)
              vocab).
Proof.
  unfold Token.Tokenize. cbn [fst snd].
  set (tokens := map _ documents).
  assert (Hlen : length tokens = length documents) by apply length_map.
  assert (Hdf : Forall (fun term => (1 <= df term tokens <= length documents)%nat)
                       (Token.vocabulary tokens)).
  { apply Forall_forall. intros term Hterm. rewrite <- Hlen. split; [|apply df_le].
    apply vocabulary_spec, elem_of_terms_of in Hterm as (doc & Hdoc & Hterm).
    unfold df. clear Hlen. induction tokens as [|doc' tokens' IH]; [inversion Hdoc|].
    rewrite filter_cons. apply elem_of_cons in Hdoc as [<-|Hdoc].
    - rewrite decide_True by exact Hterm. simpl. lia.
    - specialize (IH Hdoc). destruct (decide (term ∈ doc')); simpl; lia. }
  split; [exact Hdf|]. rewrite Idf_table, Hlen. f_equal.
  apply map_ext_Forall. eapply Forall_impl; [exact Hdf|]. simpl.
  intros term [H1 H2]. unfold idf_weight.
  destruct (Nat.eqb_spec (length documents) 0); [lia|].
  destruct (Nat.eqb_spec (df term tokens) 0); [lia|reflexivity].
Qed.

End IdfExtras.

(** ** Row normalization: unit rows *)

Section NormalizeExtras.

Import Tfidf.








End NormalizeExtras.

(** ** [TfIdf]: the rows it returns *)

Section TfIdfExtras.

Import Tfidf.

Lemma mapM_ext_in {A B} (f g : A -> exec B) (l : list A) :
  Forall (fun a => f a = g a) l -> mapM f l = mapM g l.
Proof.
  induction 1 as [|a l Ha _ IH]; [reflexivity|].
  rewrite !mapM_cons, Ha, IH. reflexivity.
Qed.

Lemma index_take {A} (l : list A) (n j : nat) :
  (j < n)%nat -> index (take n l) j = index l j.
Proof. intros H. unfold index. rewrite lookup_take_lt by exact H. reflexivity. Qed.

(** The loop over the rows reads the first [cols] entries of each row
    only. *)
Lemma TfIdf_rows_take (t : TfIdfVectorizer) (cols : nat) (idfVec : list R)
    (rows : list (list R)) :
  TfIdf_rows t cols idfVec (map (take cols) rows) = TfIdf_rows t cols idfVec rows.
Proof.
  induction rows as [|row rows IH]; [reflexivity|].
  cbn [map TfIdf_rows]. rewrite IH.
  rewrite (mapM_ext_in
             (fun j => tf ← index (take cols row) j; idf ← index idfVec j; Done (tf * idf)%R)
             (fun j => tf ← index row j; idf ← index idfVec j; Done (tf * idf)%R));
    [reflexivity|].
  apply Forall_forall. intros j Hj. apply elem_of_seq in Hj.
  rewrite index_take by lia. reflexivity.
Qed.

(** X14.  On a recognised level, for a matrix that is not empty and whose rows
    have the length of the IDF vector, [TfIdf] returns without error the
    rows of the products [tf[i][j] * idf[j]], each normalized on its own at
    the level of the vectorizer. *)
Theorem TfIdf_rows_of_products (t : TfIdfVectorizer) (tfVec : list (list R))
    (idfVec : list R) :
  recognised (NormLevel t) -> tfVec <> [] ->
  Forall (fun row => length row = length idfVec) tfVec ->
  TfIdf t tfVec idfVec
  = Done (map (fun row => normalize_row (NormLevel t) (zip_with Rmult row idfVec)) tfVec,
          None).
Proof. intros Ht Hne Hall. apply (TfIdf_table t tfVec idfVec Ht Hne Hall). Qed.

(** X15.  Rows longer than the first are accepted without a word: [TfIdf] reads
    as many entries of each row as the first row has, and returns what it
    returns for the matrix cut to that width, without any index out of
    range. *)
Theorem TfIdf_long_rows_cut (t : TfIdfVectorizer) (row0 : list R)
    (rest : list (list R)) (idfVec : list R) :
  length row0 = length idfVec ->
  Forall (fun row => (length row0 <= length row)%nat) rest ->
  TfIdf t (row0 :: rest) idfVec
  = TfIdf t (map (take (length row0)) (row0 :: rest)) idfVec /\
  exists mat err, TfIdf t (row0 :: rest) idfVec = Done (mat, err).
Proof.
  intros H0 Hrest. split.
  - unfold TfIdf. cbn [map]. rewrite firstn_all.
    rewrite (proj2 (Nat.eqb_eq _ _) H0). simpl negb. cbv iota.
    rewrite <- (TfIdf_rows_take t (length row0) idfVec (row0 :: rest)).
    cbn [map]. rewrite firstn_all. reflexivity.
  - unfold TfIdf. rewrite (proj2 (Nat.eqb_eq _ _) H0). simpl negb. cbv iota.
    destruct (recognised_dec (NormLevel t)) as [Ht|Ht].
    + destruct (TfIdf_rows_recognised t (length row0) idfVec (row0 :: rest) Ht)
        as (mat & Hm & _); [lia| |eauto].
      constructor; [lia|exact Hrest].
    + rewrite (TfIdf_rows_unrecognised t _ _ _ _ Ht); [eauto|lia|lia].
Qed.



End TfIdfExtras.

(** ** [cosineSimilarity]: symmetry, range, scaling, bounds *)

Section CosineExtras.

Import Similarity.

(** On vectors of equal length [cosineSimilarity] never stops on a fault:
    it returns the cosine. *)
Lemma cosineSimilarity_cosine (a b : list R) :
  length a = length b -> cosineSimilarity a b = Done (cosine a b).
Proof.
  intros Hlen. rewrite (cosineSimilarity_eq a b Hlen). unfold cosine.
  destruct (decide _) as [|Hn]; [reflexivity|].
  apply Div_Done.
  apply Rmult_integral_contrapositive_currified; apply sqrt_sumsq_ne_0; tauto.
Qed.

Lemma dot_comm (a b : list R) : dot a b = dot b a.
Proof.
  revert b. induction a as [|x a IH]; intros [|y b]; simpl; try reflexivity.
  rewrite IH. lra.
Qed.

Lemma cosine_comm (a b : list R) : cosine a b = cosine b a.
Proof.
  unfold cosine. rewrite (dot_comm a b), (Rmult_comm (sqrt (sumsq a))).
  destruct (decide (sumsq a = 0%R \/ sumsq b = 0%R)) as [H|H];
    destruct (decide (sumsq b = 0%R \/ sumsq a = 0%R)) as [H'|H'];
    try reflexivity; tauto.
Qed.








Lemma dot_scale (k : R) (a b : list R) : dot (map (Rmult k) a) b = (k * dot a b)%R.
Proof.
  revert b. induction a as [|x a IH]; intros [|y b]; simpl; try lra.
  rewrite IH. lra.
Qed.

Lemma sumsq_scale_mult (k : R) (a : list R) :
  sumsq (map (Rmult k) a) = (k * k * sumsq a)%R.
Proof. induction a as [|x a IH]; simpl; [lra|]. rewrite IH. lra. Qed.

Lemma cosine_scale (k : R) (a b : list R) :
  (0 < k)%R -> cosine (map (Rmult k) a) b = cosine a b.
Proof.
  intros Hk. unfold cosine. rewrite dot_scale, sumsq_scale_mult.
  pose proof (sumsq_nonneg a) as Ha.
  destruct (decide (sumsq a = 0%R \/ sumsq b = 0%R)) as [H|H].
  - rewrite decide_True; [reflexivity|]. destruct H as [H|H]; [left|right; exact H].
    rewrite H. lra.
  - rewrite decide_False.
    + rewrite sqrt_mult by nra. rewrite sqrt_square by lra.
      field. split; [|split]; try lra; apply sqrt_sumsq_ne_0; tauto.
    + intros [H'|H']; [|tauto]. apply H. left.
      apply Rmult_integral in H' as [H'|H']; [nra|exact H'].
Qed.



(** The loop reads [vec2] at the indices of [vec1]: a shorter [vec2] stops
    it on an index out of range; of a longer one the entries beyond the
    length of [vec1] are not read. *)
Lemma cosine_loop_short (pre a b : list R) (acc : R * R * R) :
  (length b < length a)%nat ->
  cosine_loop (pre ++ b) (length pre) a acc = Fault IndexOutOfRange.
Proof.
  revert pre b acc. induction a as [|x a IH]; intros pre b [[d na] nb] Hlen;
    [simpl in Hlen; lia|].
  cbn [cosine_loop]. destruct b as [|y b].
  - rewrite index_Fault by (rewrite app_nil_r; lia). reflexivity.
  - unfold index. rewrite list_lookup_middle by reflexivity. rewrite bind_Done.
    replace (pre ++ y :: b) with ((pre ++ [y]) ++ b) by (rewrite <- app_assoc; reflexivity).
    replace (S (length pre)) with (length (pre ++ [y])) by (rewrite length_app; simpl; lia).
    apply IH. simpl in Hlen. lia.
Qed.

Lemma cosine_loop_take (pre a b : list R) (acc : R * R * R) :
  cosine_loop (pre ++ take (length a) b) (length pre) a acc
  = cosine_loop (pre ++ b) (length pre) a acc.
Proof.
  revert pre b acc. induction a as [|x a IH]; intros pre b [[d na] nb]; [reflexivity|].
  cbn [cosine_loop length]. destruct b as [|y b].
  - reflexivity.
  - cbn [take]. unfold index. rewrite !list_lookup_middle by reflexivity.
    rewrite !bind_Done.
    replace (pre ++ y :: take (length a) b) with ((pre ++ [y]) ++ take (length a) b)
      by (rewrite <- app_assoc; reflexivity).
    replace (pre ++ y :: b) with ((pre ++ [y]) ++ b) by (rewrite <- app_assoc; reflexivity).
    replace (S (length pre)) with (length (pre ++ [y])) by (rewrite length_app; simpl; lia).
    apply IH.
Qed.

Lemma cosineSimilarity_short (a b : list R) :
  (length b < length a)%nat -> cosineSimilarity a b = Fault IndexOutOfRange.
Proof.
  intros Hlen. unfold cosineSimilarity.
  rewrite (cosine_loop_short [] a b _ Hlen). reflexivity.
Qed.

Lemma cosineSimilarity_take (a b : list R) :
  cosineSimilarity a (take (length a) b) = cosineSimilarity a b.
Proof. unfold cosineSimilarity. rewrite (cosine_loop_take [] a b). reflexivity. Qed.

Lemma cosineSimilarity_long (a b : list R) :
  (length a <= length b)%nat ->
  cosineSimilarity a b = Done (cosine a (take (length a) b)).
Proof.
  intros Hlen. rewrite <- cosineSimilarity_take. apply cosineSimilarity_cosine.
  rewrite length_take. lia.
Qed.

(** X19.  [cosineSimilarity] on vectors of different lengths: when the second is
    shorter, an index out of range; when it is longer, the score of the
    first vector and the second cut to its length. *)
Theorem cosineSimilarity_lengths (a b : list R) :
  ((length b < length a)%nat -> cosineSimilarity a b = Fault IndexOutOfRange) /\
  ((length a <= length b)%nat ->
     cosineSimilarity a b = cosineSimilarity a (take (length a) b) /\
     cosineSimilarity a b = Done (cosine a (take (length a) b))).
Proof.
  split.
  - apply cosineSimilarity_short.
  - intros Hlen. split.
    + symmetry. apply cosineSimilarity_take.
    + apply cosineSimilarity_long. exact Hlen.
Qed.

End CosineExtras.

(** ** [Do]: the scores of the engine *)

Section DoExtras.

Import Similarity.

Lemma insert_at_end {A} (pre : list A) (z s : A) (zs : list A) :
  <[length pre := s]> (pre ++ z :: zs) = (pre ++ [s]) ++ zs.
Proof.
  rewrite insert_app_r_alt by lia. rewrite Nat.sub_diag. simpl.
  rewrite <- app_assoc. reflexivity.
Qed.

(** The loop that fills [scores]: one score per row, the scores beyond the
    rows left as they were. *)
Lemma score_loop_Done (q : list R) (rest mat : list (list R)) (ss pre zs : list R) :
  Forall2 (fun vec s => cosineSimilarity q vec = Done s) mat ss ->
  (length mat <= length zs)%nat ->
  score_loop (q :: rest) (length pre) mat (pre ++ zs)
  = Done (pre ++ ss ++ drop (length mat) zs).
Proof.
  intros HF. revert pre zs. induction HF as [|vec s mat ss Hs _ IH]; intros pre zs Hlen.
  - reflexivity.
  - destruct zs as [|z zs]; [simpl in Hlen; lia|].
    cbn [score_loop]. unfold index at 1. cbn [lookup list_lookup].
    rewrite bind_Done, Hs, bind_Done. unfold assign.
    destruct (decide (length pre < length (pre ++ z :: zs))%nat) as [_|Hn];
      [|rewrite length_app in Hn; simpl in Hn; lia].
    rewrite bind_Done, insert_at_end.
    replace (S (length pre)) with (length (pre ++ [s]))
      by (rewrite length_app; simpl; lia).
    rewrite IH by (simpl in Hlen; lia).
    rewrite <- app_assoc. reflexivity.
Qed.

Lemma score_loop_overflow (q : list R) (rest mat : list (list R)) (pre zs : list R) :
  Forall (fun vec => (length q <= length vec)%nat) mat ->
  (length zs < length mat)%nat ->
  score_loop (q :: rest) (length pre) mat (pre ++ zs) = Fault IndexOutOfRange.
Proof.
  intros HF. revert pre zs. induction HF as [|vec mat Hv _ IH]; intros pre zs Hlen;
    [simpl in Hlen; lia|].
  cbn [score_loop]. unfold index at 1. cbn [lookup list_lookup]. rewrite bind_Done.
  rewrite (cosineSimilarity_long q vec Hv), bind_Done.
  unfold assign. destruct zs as [|z zs].
  - rewrite app_nil_r. destruct (decide (length pre < length pre)%nat); [lia|reflexivity].
  - destruct (decide (length pre < length (pre ++ z :: zs))%nat) as [_|Hn];
      [|rewrite length_app in Hn; simpl in Hn; lia].
    rewrite bind_Done, insert_at_end.
    replace (S (length pre)) with (length (pre ++ [cosine q (take (length q) vec)]))
      by (rewrite length_app; simpl; lia).
    apply IH. simpl in Hlen. lia.
Qed.

Lemma score_loop_all (q : list R) (mat : list (list R)) (n : nat) :
  Forall (fun vec => length vec = length q) mat -> length mat = n ->
  score_loop [q] 0 mat (replicate n 0%R) = Done (map (cosine q) mat).
Proof.
  intros HF Hn.
  pose proof (score_loop_Done q [] mat (map (cosine q) mat) [] (replicate n 0%R)) as H.
  simpl in H. rewrite H.
  - rewrite drop_ge by (rewrite length_replicate; lia). rewrite app_nil_r. reflexivity.
  - clear H Hn. induction HF as [|vec mat Hv _ IH]; constructor; [|exact IH].
    apply cosineSimilarity_cosine. symmetry. exact Hv.
  - rewrite length_replicate. lia.
Qed.

Lemma Tokenize_pair (Letter : Z -> bool) (t : Token.Tokenizer) (documents : list string) :
  Token.Tokenize Letter t documents
  = (Token.vocabulary (map (doc_tokens Letter t) documents),
     map (doc_tokens Letter t) documents).
Proof.
  assert (H : map (doc_tokens Letter t) documents
              = map (fun doc =>
                       let tkns := Token.tokenize Letter t doc in
                       match Token.normalizeFunc t with
                       | Some f => map f tkns
                       | None => tkns
                       end) documents).
  { apply map_ext. intros doc. unfold doc_tokens, Token.Tokenize.
    cbn [snd map concat]. apply app_nil_r. }
  rewrite H. reflexivity.
Qed.

Lemma normalize_row_scale (lvl : Z) (vec : list R) :
  exists k, (0 < k)%R /\ normalize_row lvl vec = map (Rmult k) vec.
Proof.
  assert (H1 : map (Rmult 1) vec = vec).
  { rewrite <- (List.map_id vec) at 2. apply map_ext. intros x. lra. }
  assert (Hd : forall n, map (fun val => val / n)%R vec = map (Rmult (/ n)) vec).
  { intros n. apply map_ext. intros x. unfold Rdiv. apply Rmult_comm. }
  unfold normalize_row.
  destruct (lvl =? Tfidf.L1Norm).
  - destruct (decide (norm1 vec = 0%R)) as [Hz|Hz].
    + exists 1%R. split; [lra|]. symmetry. exact H1.
    + exists (/ norm1 vec)%R. split; [|apply Hd].
      apply Rinv_0_lt_compat. pose proof (norm1_nonneg vec). lra.
  - destruct (lvl =? Tfidf.L2Norm).
    + destruct (decide (norm2 vec = 0%R)) as [Hz|Hz].
      * exists 1%R. split; [lra|]. symmetry. exact H1.
      * exists (/ norm2 vec)%R. split; [|apply Hd].
        apply Rinv_0_lt_compat. pose proof (sqrt_pos (sumsq vec)). unfold norm2 in *. lra.
    + exists 1%R. split; [lra|]. symmetry. exact H1.
Qed.

Lemma length_normalize_row (lvl : Z) (vec : list R) :
  length (normalize_row lvl vec) = length vec.
Proof.
  destruct (normalize_row_scale lvl vec) as (k & _ & ->). apply length_map.
Qed.

(** The score does not see the normalization of the rows. *)
Lemma cosine_normalize (lvl : Z) (a b : list R) :
  cosine (normalize_row lvl a) (normalize_row lvl b) = cosine a b.
Proof.
  destruct (normalize_row_scale lvl a) as (ka & Ha & ->).
  destruct (normalize_row_scale lvl b) as (kb & Hb & ->).
  rewrite (cosine_scale ka _ _ Ha), cosine_comm, (cosine_scale kb _ _ Hb).
  apply cosine_comm.
Qed.

Lemma zip_with_map {A} (f g : A -> R) (l : list A) :
  zip_with Rmult (map f l) (map g l) = map (fun x => f x * g x)%R l.
Proof. induction l as [|x l IH]; simpl; [reflexivity|]. rewrite IH. reflexivity. Qed.

Lemma tfidf_row_weighted (lvl : Z) (vocabulary : list string)
    (corpus : list (list string)) (doc : list string) :
  tfidf_row lvl
    (map (fun term => idf_weight (length corpus) (df term corpus) true) vocabulary)
    (map (fun term => INR (occurrences term doc)) vocabulary)
  = normalize_row lvl (weighted_row vocabulary corpus doc).
Proof. unfold tfidf_row, weighted_row. rewrite zip_with_map. reflexivity. Qed.

(** The scores of the engine built from the library's parts, on a
    recognised level and a corpus that is not empty. *)
Lemma Do_library (Letter : Z -> bool) (t : Token.Tokenizer) (v : Tfidf.TfIdfVectorizer)
    (input : string) (documents : list string) :
  recognised (Tfidf.NormLevel v) -> documents <> [] ->
  Do (library_engine Letter t v) input documents
  = Done (map (fun doc =>
                 cosine
                   (weighted_row (Token.vocabulary (map (doc_tokens Letter t) documents))
                      (map (doc_tokens Letter t) documents) (doc_tokens Letter t input))
                   (weighted_row (Token.vocabulary (map (doc_tokens Letter t) documents))
                      (map (doc_tokens Letter t) documents) doc))
              (map (doc_tokens Letter t) documents), None).
Proof.
  intros Hrec Hne.
  unfold Do, library_engine, NewCosineSimilarity, of_Tokenizer, of_TfIdfVectorizer.
  cbn [Tokenize tokenizer_ vectorizer_ TfIdf].
  rewrite !Tokenize_pair. cbn [map].
  set (corpus := map (doc_tokens Letter t) documents).
  set (vocab := Token.vocabulary corpus).
  rewrite !bind_Done. rewrite Idf_table, bind_Done. rewrite !Tf_table.
  set (idf := map (fun term => idf_weight (length corpus) (df term corpus) true) vocab).
  assert (Hidf : length idf = length vocab) by apply length_map.
  rewrite (TfIdf_table v _ _ Hrec).
  2: { unfold corpus. destruct documents; [contradiction|discriminate]. }
  2: { apply Forall_map, Forall_forall. intros doc _. rewrite length_map. congruence. }
  rewrite !bind_Done. cbv iota beta. cbn [map].
  rewrite (TfIdf_table v _ _ Hrec);
    [|discriminate|constructor; [rewrite length_map; congruence|constructor]].
  rewrite !bind_Done. cbv iota beta. cbn [map].
  rewrite Tf_table. cbn [map].
  rewrite score_loop_all.
  - rewrite bind_Done. f_equal. f_equal. rewrite !map_map. apply map_ext. intros doc.
    unfold idf. rewrite !tfidf_row_weighted. apply cosine_normalize.
  - apply Forall_map, Forall_map, Forall_forall. intros doc _.
    unfold tfidf_row. rewrite !length_normalize_row, !length_zip_with, !length_map.
    reflexivity.
  - unfold corpus. rewrite !length_map. reflexivity.
Qed.

Lemma Do_library_empty (Letter : Z -> bool) (t : Token.Tokenizer)
    (v : Tfidf.TfIdfVectorizer) (input : string) :
  Do (library_engine Letter t v) input [] = Done ([], Some EmptyInput).
Proof. reflexivity. Qed.

Lemma Do_library_unrecognised (Letter : Z -> bool) (t : Token.Tokenizer)
    (v : Tfidf.TfIdfVectorizer) (input : string) (documents : list string) :
  ~ recognised (Tfidf.NormLevel v) -> documents <> [] ->
  Do (library_engine Letter t v) input documents = Done ([], Some InvalidConfig).
Proof.
  intros Hrec Hne. destruct documents as [|d ds]; [contradiction|].
  unfold Do, library_engine, NewCosineSimilarity, of_Tokenizer, of_TfIdfVectorizer.
  cbn [Tokenize tokenizer_ vectorizer_ TfIdf].
  rewrite !Tokenize_pair. cbn [map].
  set (corpus := doc_tokens Letter t d :: map (doc_tokens Letter t) ds).
  set (vocab := Token.vocabulary corpus).
  rewrite !bind_Done. rewrite Idf_table, bind_Done. rewrite !Tf_table.
  unfold corpus at 3. cbn [map]. unfold Tfidf.TfIdf.
  rewrite !length_map, Nat.eqb_refl. simpl negb. cbv iota.
  rewrite (TfIdf_rows_unrecognised v _ _ _ _ Hrec); [reflexivity| |];
    rewrite !length_map; lia.
Qed.


(** X20.  The errors of the engine built from the library's parts: an empty
    corpus is refused as an empty matrix, whatever the query; on a corpus
    that is not empty the only error is the unrecognised level.  The
    engine never reports a mismatch of dimensions and never stops on a
    fault; without error it returns one score per document. *)
Theorem Do_errors (Letter : Z -> bool) (t : Token.Tokenizer) (v : Tfidf.TfIdfVectorizer)
    (input : string) (documents : list string) :
  (documents = [] ->
     Do (library_engine Letter t v) input documents = Done ([], Some EmptyInput)) /\
  (documents <> [] /\ ~ recognised (Tfidf.NormLevel v) ->
     Do (library_engine Letter t v) input documents = Done ([], Some InvalidConfig)) /\
  (documents <> [] /\ recognised (Tfidf.NormLevel v) ->
     exists scores, Do (library_engine Letter t v) input documents = Done (scores, None)
                    /\ length scores = length documents) /\
  (forall scores, Do (library_engine Letter t v) input documents
                  <> Done (scores, Some ShapeMismatch)) /\
  (forall f, Do (library_engine Letter t v) input documents <> Fault f).
Proof.
  assert (Hcases : documents = [] \/
                   (documents <> [] /\ ~ recognised (Tfidf.NormLevel v)) \/
                   (documents <> [] /\ recognised (Tfidf.NormLevel v))).
  { destruct documents; [left; reflexivity|right].
    destruct (recognised_dec (Tfidf.NormLevel v)); [right|left]; split;
      try assumption; discriminate. }
  split; [intros ->; apply Do_library_empty|].
  split; [intros [Hne Hrec]; apply Do_library_unrecognised; assumption|].
  split.
  { intros [Hne Hrec]. eexists. split; [apply Do_library; assumption|].
    rewrite !length_map. reflexivity. }
  destruct Hcases as [->|[[Hne Hrec]|[Hne Hrec]]].
  - rewrite Do_library_empty. split; intros; discriminate.
  - rewrite (Do_library_unrecognised Letter t v input documents Hrec Hne).
    split; intros; discriminate.
  - rewrite (Do_library Letter t v input documents Hrec Hne).
    split; intros; discriminate.
Qed.




Lemma df_Permutation (term : string) (corpus corpus' : list (list string)) :
  corpus ≡ₚ corpus' -> df term corpus = df term corpus'.
Proof. intros Hp. unfold df. rewrite Hp. reflexivity. Qed.

Lemma weighted_row_Permutation (vocabulary : list string)
    (corpus corpus' : list (list string)) (doc : list string) :
  corpus ≡ₚ corpus' ->
  weighted_row vocabulary corpus doc = weighted_row vocabulary corpus' doc.
Proof.
  intros Hp. unfold weighted_row. apply map_ext. intros term.
  rewrite (df_Permutation term _ _ Hp), (Permutation_length Hp). reflexivity.
Qed.

Lemma vocabulary_Permutation (corpus corpus' : list (list string)) :
  corpus ≡ₚ corpus' -> Token.vocabulary corpus = Token.vocabulary corpus'.
Proof.
  intros Hp. apply vocabulary_unique. intros x.
  pose proof (terms_of_Permutation (fun doc : list string => doc) corpus corpus' x Hp) as H.
  rewrite !List.map_id in H. exact H.
Qed.

(** X23.  The score of a document does not depend on its place in the corpus:
    for the corpus in any other order the engine returns the same scores,
    in that order. *)
Theorem Do_order_of_documents (Letter : Z -> bool) (t : Token.Tokenizer)
    (v : Tfidf.TfIdfVectorizer) (input : string) (documents documents' : list string) :
  recognised (Tfidf.NormLevel v) -> documents <> [] -> documents ≡ₚ documents' ->
  exists score : string -> R,
    Do (library_engine Letter t v) input documents = Done (map score documents, None) /\
    Do (library_engine Letter t v) input documents' = Done (map score documents', None).
Proof.
  intros Hrec Hne Hp.
  assert (Hne' : documents' <> []).
  { intros ->. apply Permutation_nil_r in Hp. contradiction. }
  assert (Hc : map (doc_tokens Letter t) documents ≡ₚ map (doc_tokens Letter t) documents')
    by (apply Permutation_map; exact Hp).
  exists (fun d =>
            cosine
              (weighted_row (Token.vocabulary (map (doc_tokens Letter t) documents))
                 (map (doc_tokens Letter t) documents) (doc_tokens Letter t input))
              (weighted_row (Token.vocabulary (map (doc_tokens Letter t) documents))
                 (map (doc_tokens Letter t) documents) (doc_tokens Letter t d))).
  rewrite (Do_library Letter t v input documents Hrec Hne).
  rewrite (Do_library Letter t v input documents' Hrec Hne').
  rewrite !map_map. split; [reflexivity|].
  rewrite <- (vocabulary_Permutation _ _ Hc). f_equal. f_equal.
  apply map_ext. intros d.
  rewrite !(weighted_row_Permutation _ _ _ _ Hc). reflexivity.
Qed.

Lemma cosine_zero_l (a b : list R) : zero_row a -> cosine a b = 0%R.
Proof.
  intros Hz. unfold cosine. rewrite decide_True; [reflexivity|].
  left. apply sumsq_zero. exact Hz.
Qed.


Lemma map_const {A B} (f : A -> B) (c : B) (l : list A) :
  (forall x, f x = c) -> map f l = replicate (length l) c.
Proof.
  intros H. induction l as [|x l IH]; simpl; [reflexivity|]. rewrite H, IH. reflexivity.
Qed.

(** X24.  A query none of whose tokens is in the vocabulary of the corpus scores
    exactly 0 against every document. *)
Theorem Do_no_common_token (Letter : Z -> bool) (t : Token.Tokenizer)
    (v : Tfidf.TfIdfVectorizer) (input : string) (documents : list string) :
  recognised (Tfidf.NormLevel v) -> documents <> [] ->
  Forall (fun token => token ∉ (Token.Tokenize Letter t documents).1)
         (doc_tokens Letter t input) ->
  Do (library_engine Letter t v) input documents
  = Done (replicate (length documents) 0%R, None).
Proof.
  intros Hrec Hne Hq. rewrite (Do_library Letter t v input documents Hrec Hne).
  rewrite Tokenize_pair in Hq. cbn [fst] in Hq.
  f_equal. f_equal. rewrite map_map. apply map_const. intros d.
  apply cosine_zero_l. apply Forall_map, Forall_forall. intros term Hterm.
  rewrite occurrences_absent; [apply Rmult_0_l|].
  intros Hin. rewrite Forall_forall in Hq. exact (Hq term Hin Hterm).
Qed.





(** X26.  Whatever the tokenizer and the vectorizer of the engine, an error of
    [Do] comes with the [nil] scores and is the error of one of the calls to
    [Tokenize], on the corpus or on the query, or to [TfIdf]. *)
Theorem Do_error_origin (c : CosineSimilarity) (input : string)
    (documents : list string) (scores : list R) (e : error) :
  Do c input documents = Done (scores, Some e) ->
  scores = [] /\
  ((exists vocabulary tokens,
      Tokenize (tokenizer_ c) documents = Done (vocabulary, tokens, Some e)) \/
   (exists vocabulary tokens,
      Tokenize (tokenizer_ c) [input] = Done (vocabulary, tokens, Some e)) \/
   (exists tfVec idfVec mat,
      TfIdf (vectorizer_ c) tfVec idfVec = Done (mat, Some e))).
Proof.
  unfold Do. intros H.
  apply bind_Done_inv in H as ([[vocabulary tokens] err] & Htok & H).
  destruct err as [e1|].
  { injection H as <- <-. split; [reflexivity|]. left. eauto. }
  apply bind_Done_inv in H as (idfVec & Hidf & H).
  apply bind_Done_inv in H as ([tfIdfVec err] & Hmat & H).
  destruct err as [e1|].
  { injection H as <- <-. split; [reflexivity|]. right. right. eauto. }
  apply bind_Done_inv in H as ([[vocabulary' queryTokens] err] & Hq & H).
  destruct err as [e1|].
  { injection H as <- <-. split; [reflexivity|]. right. left. eauto. }
  apply bind_Done_inv in H as ([tfIdf err] & Hqm & H).
  destruct err as [e1|].
  { injection H as <- <-. split; [reflexivity|]. right. right. eauto. }
  apply bind_Done_inv in H as (scores' & _ & H). discriminate.
Qed.

(** X27.  The loop that fills the scores trusts the vectorizer for the number of
    rows: with fewer rows than documents the scores left over stay 0; with
    more rows than documents it stops on an index out of range.  Of a row
    longer than the row of the query the entries beyond are not read. *)
Theorem score_loop_rows (q : list R) (rest mat : list (list R)) (n : nat) :
  Forall (fun vec => (length q <= length vec)%nat) mat ->
  ((length mat <= n)%nat ->
     score_loop (q :: rest) 0 mat (replicate n 0%R)
     = Done (map (fun vec => cosine q (take (length q) vec)) mat
             ++ replicate (n - length mat) 0%R)) /\
  ((n < length mat)%nat ->
     score_loop (q :: rest) 0 mat (replicate n 0%R) = Fault IndexOutOfRange).
Proof.
  intros HF. split; intros Hn.
  - pose proof (score_loop_Done q rest mat
                  (map (fun vec => cosine q (take (length q) vec)) mat) []
                  (replicate n 0%R)) as H.
    simpl in H. rewrite H.
    + rewrite drop_replicate. reflexivity.
    + clear H Hn. induction HF as [|vec mat Hv _ IH]; constructor; [|exact IH].
      apply cosineSimilarity_long. exact Hv.
    + rewrite length_replicate. exact Hn.
  - apply (score_loop_overflow q rest mat [] (replicate n 0%R) HF).
    rewrite length_replicate. exact Hn.
Qed.

End DoExtras.

(** ** The tokenizer on a regular expression *)

Section PatternExtras.

Import TokenPattern.

Context {Regexp syntax_error : Type}.
Variable Compile : string -> Regexp + syntax_error.
Variable FindAllString : Regexp -> string -> list string.

Lemma Tokenize_loop_rows (t : Tokenizer) (r : Regexp) (documents : list string)
    (tokens : list (list string)) :
  Compile (tokenPattern t) = inl r ->
  Tokenize_loop Compile FindAllString t documents tokens
  = (tokens ++ map (fun doc =>
                      match normalizeFunc t with
                      | Some f => map f (FindAllString r doc)
                      | None => FindAllString r doc
                      end) documents, None).
Proof.
  intros Hr. revert tokens. induction documents as [|doc rest IH]; intros tokens.
  - simpl. rewrite app_nil_r. reflexivity.
  - cbn [Tokenize_loop map]. unfold tokenize. rewrite Hr.
    destruct (normalizeFunc t) as [f|]; rewrite IH, <- app_assoc; reflexivity.
Qed.

Lemma Tokenize_loop_error (t : Tokenizer) (err : syntax_error) (doc : string)
    (rest : list string) (tokens : list (list string)) :
  Compile (tokenPattern t) = inr err ->
  Tokenize_loop Compile FindAllString t (doc :: rest) tokens = ([], Some err).
Proof. intros Hr. cbn [Tokenize_loop]. unfold tokenize. rewrite Hr. reflexivity. Qed.

(** X28.  A pattern that does not compile is reported by [Tokenize] as the error
    of [Compile], with no vocabulary and no tokens, as soon as there is a
    document; on the empty corpus the pattern is never compiled and
    [Tokenize] returns without error. *)
Theorem Tokenize_pattern_error (t : Tokenizer) (err : syntax_error)
    (documents : list string) :
  Compile (tokenPattern t) = inr err ->
  (documents <> [] ->
     Tokenize Compile FindAllString t documents = ([], [], Some err)) /\
  Tokenize Compile FindAllString t [] = (Token.vocabulary [], [], None).
Proof.
  intros Hr. split; [|reflexivity].
  intros Hne. destruct documents as [|doc rest]; [contradiction|].
  unfold Tokenize. rewrite (Tokenize_loop_error t err doc rest [] Hr). reflexivity.
Qed.

(** X29.  With a pattern that compiles, [Tokenize] returns without error the
    matches of the pattern in each document, in the order of the documents,
    each match passed once through the normalization function when there is
    one, and the vocabulary of these tokens. *)
Theorem Tokenize_pattern_matches (t : Tokenizer) (r : Regexp) (documents : list string) :
  Compile (tokenPattern t) = inl r ->
  Tokenize Compile FindAllString t documents
  = (Token.vocabulary
       (map (fun doc => map (default (fun term => term) (normalizeFunc t))
                            (FindAllString r doc)) documents),
     map (fun doc => map (default (fun term => term) (normalizeFunc t))
                         (FindAllString r doc)) documents,
     None).
Proof.
  intros Hr. unfold Tokenize. rewrite (Tokenize_loop_rows t r documents [] Hr).
  cbn [app].
  assert (H : map (fun doc =>
                     match normalizeFunc t with
                     | Some f => map f (FindAllString r doc)
                     | None => FindAllString r doc
                     end) documents
              = map (fun doc => map (default (fun term => term) (normalizeFunc t))
                                    (FindAllString r doc)) documents).
  { apply map_ext. intros doc. destruct (normalizeFunc t); simpl; [reflexivity|].
    symmetry. apply List.map_id. }
  rewrite H. reflexivity.
Qed.

End PatternExtras.

(** ** The options of the vectorizer *)

Section OptionExtras.

Import Tfidf.

(** X30.  The constructor takes any level: without option the level is
    [L2Norm]; the last [WithNormLevel] decides, recognised or not; and a
    level that is not recognised is reported by [TfIdf] only, for every
    matrix whose first row has the length of the IDF vector. *)
Theorem NewTfIdfVectorizer_level (opts : list TfIdfOption) (lvl : Z) :
  NormLevel (NewTfIdfVectorizer []) = L2Norm /\
  NormLevel (NewTfIdfVectorizer (opts ++ [WithNormLevel lvl])) = lvl /\
  (~ recognised lvl ->
   forall row0 rest idfVec, length row0 = length idfVec ->
     TfIdf (NewTfIdfVectorizer (opts ++ [WithNormLevel lvl])) (row0 :: rest) idfVec
     = Done ([], Some InvalidConfig)).
Proof.
  assert (Hl : NormLevel (NewTfIdfVectorizer (opts ++ [WithNormLevel lvl])) = lvl).
  { unfold NewTfIdfVectorizer. rewrite fold_left_app. reflexivity. }
  split; [reflexivity|]. split; [exact Hl|].
  intros Hrec row0 rest idfVec Hlen. unfold TfIdf.
  rewrite (proj2 (Nat.eqb_eq _ _) Hlen). simpl negb. cbv iota.
  apply TfIdf_rows_unrecognised; [rewrite Hl; exact Hrec|lia|lia].
Qed.

End OptionExtras.

(** ** Further instances *)

Section FurtherInstances.

Import Tfidf.

(** The tokens of a document of three letters. *)
Lemma tokenize_tokens_are_letters_example :
  Forall (fun token => 1 < len token /\ letters_only (fun _ => false) token)
         (Token.tokenize (fun _ => false) raw_tokenizer "ab c").
Proof.
  apply (tokenize_tokens_are_letters (fun _ => false) "ab c"). reflexivity.
Defined.

(** A document of digits and signs. *)
Lemma tokenize_no_letter_example :
  Token.tokenize (fun _ => false) lower_tokenizer "1 + 2" = [].
Proof.
  apply (tokenize_no_letter (fun _ => false) lower_tokenizer "1 + 2").
  vm_compute. repeat constructor.
Defined.

(** Lowercasing, twice. *)
Lemma Tokenize_normalizes_twice_example :
  (Token.Tokenize (fun _ => false) lower_tokenizer ["Ab"]).2
  = map (fun doc =>
           map (fun token => Strings.ToLower (Strings.ToLower token))
               (Token.tokenize (fun _ => false) raw_tokenizer doc)) ["Ab"].
Proof.
  apply (Tokenize_normalizes_twice (fun _ => false) lower_tokenizer Strings.ToLower ["Ab"]).
  reflexivity.
Defined.

(** A document of four tokens, three of them in the vocabulary. *)
Lemma Tf_row_sum_example :
  exists row, Tf ["cat"; "the"] [["the"; "cat"; "the"; "dog"]] !! 0%nat = Some row /\
    sum_list row
    = INR (length (filter (fun token => token ∈ ["cat"; "the"])
                          ["the"; "cat"; "the"; "dog"])) /\
    Forall (fun x => (0 <= x)%R) row.
Proof.
  assert (H : Tf ["cat"; "the"] [["the"; "cat"; "the"; "dog"]] !! 0%nat
              = Some (map (fun term => INR (occurrences term ["the"; "cat"; "the"; "dog"]))
                          ["cat"; "the"]))
    by (rewrite Tf_table; reflexivity).
  eexists. split; [exact H|].
  apply (Tf_row_sum ["cat"; "the"] [["the"; "cat"; "the"; "dog"]] 0
           ["the"; "cat"; "the"; "dog"] _); [|reflexivity|exact H].
  apply (bool_decide_unpack _). vm_compute. exact I.
Defined.

(** The first document of the corpus of the test of [Do]. *)
Lemma Tokenize_Tf_row_sum_example :
  exists row,
    Tf (Token.Tokenize (fun _ => false) lower_tokenizer ["apple orange"; "banana grape"]).1
       (Token.Tokenize (fun _ => false) lower_tokenizer ["apple orange"; "banana grape"]).2
    !! 0%nat = Some row /\
    sum_list row = INR (length ["apple"; "orange"]).
Proof.
  assert (H : Tf (Token.Tokenize (fun _ => false) lower_tokenizer
                    ["apple orange"; "banana grape"]).1
                 (Token.Tokenize (fun _ => false) lower_tokenizer
                    ["apple orange"; "banana grape"]).2 !! 0%nat
              = Some (map (fun term => INR (occurrences term ["apple"; "orange"]))
                          ["apple"; "banana"; "grape"; "orange"]))
    by (rewrite Tokenize_corpus, Tf_table; reflexivity).
  eexists. split; [exact H|].
  apply (Tokenize_Tf_row_sum (fun _ => false) lower_tokenizer
           ["apple orange"; "banana grape"] 0 ["apple"; "orange"] _); [|exact H].
  rewrite Tokenize_corpus. reflexivity.
Defined.

(** A term of one document and a term of both. *)
Lemma Idf_rarer_weighs_more_example :
  exists idfVec w1 w2,
    Idf ["cat"; "the"] [["the"; "cat"]; ["the"]] true = Done idfVec /\
    idfVec !! 0%nat = Some w1 /\ idfVec !! 1%nat = Some w2 /\ (w2 <= w1)%R /\
    (true = true ->
     (df "cat" [["the"; "cat"]; ["the"]] < df "the" [["the"; "cat"]; ["the"]])%nat ->
     (w2 < w1)%R).
Proof.
  apply (Idf_rarer_weighs_more ["cat"; "the"] [["the"; "cat"]; ["the"]] true 0 1
           "cat" "the"); [reflexivity|reflexivity|].
  vm_compute. lia.
Defined.


(** One row, without normalization. *)
Lemma TfIdf_rows_of_products_example :
  TfIdf (NewTfIdfVectorizer [WithNormLevel NoNorm]) [[1; 2]]%R [3; 4]%R
  = Done (map (fun row =>
                 normalize_row (NormLevel (NewTfIdfVectorizer [WithNormLevel NoNorm]))
                               (zip_with Rmult row [3; 4]%R)) [[1; 2]]%R, None).
Proof.
  apply (TfIdf_rows_of_products (NewTfIdfVectorizer [WithNormLevel NoNorm])
           [[1; 2]]%R [3; 4]%R).
  - left. reflexivity.
  - discriminate.
  - repeat constructor.
Defined.

(** A second row longer than the first. *)
Lemma TfIdf_long_rows_cut_example :
  TfIdf (NewTfIdfVectorizer []) [[1]; [2; 5]]%R [1%R]
  = TfIdf (NewTfIdfVectorizer []) (map (take (length [1%R])) [[1]; [2; 5]]%R) [1%R] /\
  exists mat err, TfIdf (NewTfIdfVectorizer []) [[1]; [2; 5]]%R [1%R] = Done (mat, err).
Proof.
  apply (TfIdf_long_rows_cut (NewTfIdfVectorizer []) [1%R] [[2; 5]%R] [1%R]).
  - reflexivity.
  - constructor; [simpl; lia|constructor].
Defined.






(** The two documents in both orders. *)
Lemma Do_order_of_documents_example :
  exists score : string -> R,
    Similarity.Do (library_engine (fun _ => false) lower_tokenizer (NewTfIdfVectorizer []))
       "apple banana" ["apple orange"; "banana grape"]
    = Done (map score ["apple orange"; "banana grape"], None) /\
    Similarity.Do (library_engine (fun _ => false) lower_tokenizer (NewTfIdfVectorizer []))
       "apple banana" ["banana grape"; "apple orange"]
    = Done (map score ["banana grape"; "apple orange"], None).
Proof.
  apply (Do_order_of_documents (fun _ => false) lower_tokenizer (NewTfIdfVectorizer [])
           "apple banana" ["apple orange"; "banana grape"] ["banana grape"; "apple orange"]).
  - right. right. reflexivity.
  - discriminate.
  - apply perm_swap.
Defined.

(** A query about another fruit. *)
Lemma Do_no_common_token_example :
  Similarity.Do (library_engine (fun _ => false) lower_tokenizer (NewTfIdfVectorizer []))
     "kiwi" ["apple orange"; "banana grape"]
  = Done (replicate (length ["apple orange"; "banana grape"]) 0%R, None).
Proof.
  apply (Do_no_common_token (fun _ => false) lower_tokenizer (NewTfIdfVectorizer [])
           "kiwi" ["apple orange"; "banana grape"]).
  - right. right. reflexivity.
  - discriminate.
  - apply (bool_decide_unpack _). vm_compute. exact I.
Defined.


(** The empty corpus. *)
Lemma Do_error_origin_example :
  ([] : list R) = [] /\
  ((exists vocabulary tokens,
      Similarity.Tokenize (Similarity.tokenizer_ (library_engine (fun _ => false) raw_tokenizer
                              (NewTfIdfVectorizer []))) []
      = Done (vocabulary, tokens, Some EmptyInput)) \/
   (exists vocabulary tokens,
      Similarity.Tokenize (Similarity.tokenizer_ (library_engine (fun _ => false) raw_tokenizer
                              (NewTfIdfVectorizer []))) ["apple"]
      = Done (vocabulary, tokens, Some EmptyInput)) \/
   (exists tfVec idfVec mat,
      Similarity.TfIdf (Similarity.vectorizer_ (library_engine (fun _ => false) raw_tokenizer
                            (NewTfIdfVectorizer []))) tfVec idfVec
      = Done (mat, Some EmptyInput))).
Proof.
  apply (Do_error_origin (library_engine (fun _ => false) raw_tokenizer
                            (NewTfIdfVectorizer [])) "apple" [] [] EmptyInput).
  reflexivity.
Defined.

(** One row for two documents, and two rows for one. *)
Lemma score_loop_rows_example :
  ((length [[1; 0; 5]%R] <= 2)%nat ->
     Similarity.score_loop [[1; 0]%R] 0 [[1; 0; 5]%R] (replicate 2 0%R)
     = Done (map (fun vec => cosine [1; 0]%R (take (length [1; 0]%R) vec)) [[1; 0; 5]%R]
             ++ replicate (2 - length [[1; 0; 5]%R]) 0%R)) /\
  ((2 < length [[1; 0; 5]%R])%nat ->
     Similarity.score_loop [[1; 0]%R] 0 [[1; 0; 5]%R] (replicate 2 0%R) = Fault IndexOutOfRange).
Proof.
  apply (score_loop_rows [1; 0]%R [] [[1; 0; 5]%R] 2).
  constructor; [simpl; lia|constructor].
Defined.

(** A [Compile] that refuses every pattern. *)
Lemma Tokenize_pattern_error_example :
  (["apple"] <> [] ->
     TokenPattern.Tokenize (fun _ => inr "error parsing regexp" : unit + string)
       (fun _ _ => []) (TokenPattern.NewTokenizer [TokenPattern.WithTokenPattern "a("])
       ["apple"]
     = ([], [], Some "error parsing regexp")) /\
  TokenPattern.Tokenize (fun _ => inr "error parsing regexp" : unit + string)
    (fun _ _ => []) (TokenPattern.NewTokenizer [TokenPattern.WithTokenPattern "a("]) []
  = (Token.vocabulary [], [], None).
Proof.
  apply (Tokenize_pattern_error (fun _ => inr "error parsing regexp" : unit + string)
           (fun _ _ => []) (TokenPattern.NewTokenizer [TokenPattern.WithTokenPattern "a("])
           "error parsing regexp" ["apple"]).
  reflexivity.
Defined.

(** A [Compile] that accepts every pattern, and whole documents as
    matches. *)
Lemma Tokenize_pattern_matches_example :
  TokenPattern.Tokenize (fun _ => inl tt : unit + string) (fun _ doc => [doc])
    (TokenPattern.NewTokenizer [TokenPattern.WithNormalizeFunc Strings.ToLower])
    ["Apple"; "Fig"]
  = (Token.vocabulary
       (map (fun doc =>
               map (default (fun term => term)
                      (TokenPattern.normalizeFunc
                         (TokenPattern.NewTokenizer
                            [TokenPattern.WithNormalizeFunc Strings.ToLower])))
                   ((fun _ doc => [doc]) tt doc)) ["Apple"; "Fig"]),
     map (fun doc =>
            map (default (fun term => term)
                   (TokenPattern.normalizeFunc
                      (TokenPattern.NewTokenizer
                         [TokenPattern.WithNormalizeFunc Strings.ToLower])))
                ((fun _ doc => [doc]) tt doc)) ["Apple"; "Fig"],
     None).
Proof.
  apply (Tokenize_pattern_matches (fun _ => inl tt : unit + string) (fun _ doc => [doc])
           (TokenPattern.NewTokenizer [TokenPattern.WithNormalizeFunc Strings.ToLower])
           tt ["Apple"; "Fig"]).
  reflexivity.
Defined.

End FurtherInstances.
